(** * The events route of agentic-events: model and verified properties

    The development embeds the API route handler of the repository (the
    module that defines [sanitizeSummary], [normalizeEvent] and [GET]) and
    proves the properties its specification states about it.

    Conventions of the embedding.
    - A JavaScript string is modelled by the byte string of its UTF-8
      encoding (well-formed text, as an XML parser or a URL decoder delivers
      it).  [Buffer.from(s)] is therefore the identity on the model.
    - [undefined] and [null] are [None].
    - A JavaScript number that the route computes with is an integer, NaN or
      an infinity ([Js.number]).
    - An expression that may throw evaluates to a [completion].
    - The built-ins whose full definition is a Unicode table or is left to
      the engine ([toLowerCase], [Date.parse], [toISOString]) are the methods
      of the class [Engine]; the registry [EVENT_SOURCES], which lives in
      another module of the repository, and the network ([parser.parseURL])
      are arguments of the functions that read them. *)

From Stdlib Require Import String Ascii List ZArith NArith Lia Bool Arith.
From Stdlib Require Import Permutation Sorted.
From Stdlib Require Import DecimalString DecimalNat.
Import ListNotations.
Local Open Scope string_scope.
Local Open Scope list_scope.

(** ** Completions: values and thrown exceptions *)

Inductive JsError : Type :=
| RangeError (message : string)
| OtherError (message : string).

Inductive completion (A : Type) : Type :=
| Normal (a : A)
| Throw (e : JsError).
Arguments Normal {A} a.
Arguments Throw {A} e.

Definition bind {A B} (c : completion A) (k : A -> completion B) : completion B :=
  match c with
  | Normal a => k a
  | Throw e => Throw e
  end.

Notation "x <- c ;; k" := (bind c (fun x => k))
  (at level 61, c at next level, right associativity).

(** [try { body } catch (error) { handler }] where the handler returns. *)
Definition try_catch {A} (body : completion A) (handler : JsError -> A) : A :=
  match body with
  | Normal a => a
  | Throw e => handler e
  end.

(** [xs.map(f)] when [f] may throw: the first exception aborts the map. *)
Fixpoint map_throwing {A B} (f : A -> completion B) (xs : list A)
  : completion (list B) :=
  match xs with
  | [] => Normal []
  | x :: xs' =>
      y <- f x ;;
      ys <- map_throwing f xs' ;;
      Normal (y :: ys)
  end.

(** ** JavaScript built-ins used by the route *)

Module Js.

(** Truthiness of a string, and of a possibly undefined string. *)
Definition truthy (s : string) : bool :=
  match s with
  | EmptyString => false
  | String _ _ => true
  end.

Definition truthy_opt (o : option string) : bool :=
  match o with
  | Some s => truthy s
  | None => false
  end.

(** [a ?? b] *)
Definition nullish {A} (o : option A) (d : A) : A :=
  match o with
  | Some a => a
  | None => d
  end.

(** [a || b] on strings. *)
Definition or_else (a b : string) : string := if truthy a then a else b.

Definition byte (c : ascii) : N := N_of_ascii c.

(** One leading code point of the classes WhiteSpace and LineTerminator
    (what [trim], [parseInt] and the regular expression class [\s] skip),
    read off the UTF-8 bytes; the result is the rest of the string. *)
Definition strip_space (s : string) : option string :=
  match s with
  | EmptyString => None
  | String c s1 =>
      let n := byte c in
      if ((9 <=? n) && (n <=? 13) || (n =? 32))%N then Some s1
      else
        match s1 with
        | EmptyString => None
        | String d s2 =>
            let m := byte d in
            if ((n =? 194) && (m =? 160))%N then Some s2        (* U+00A0 *)
            else
              match s2 with
              | EmptyString => None
              | String e s3 =>
                  let k := byte e in
                  if ((n =? 225) && (m =? 154) && (k =? 128)         (* U+1680 *)
                      || (n =? 226) && (m =? 128)
                         && ((128 <=? k) && (k <=? 138)              (* U+2000..U+200A *)
                             || (k =? 168) || (k =? 169)             (* U+2028, U+2029 *)
                             || (k =? 175))                          (* U+202F *)
                      || (n =? 226) && (m =? 129) && (k =? 159)      (* U+205F *)
                      || (n =? 227) && (m =? 128) && (k =? 128)      (* U+3000 *)
                      || (n =? 239) && (m =? 187) && (k =? 191))%N   (* U+FEFF *)
                  then Some s3
                  else None
              end
        end
  end.

Fixpoint trimStart_fuel (fuel : nat) (s : string) : string :=
  match fuel with
  | O => s
  | S fuel' =>
      match strip_space s with
      | Some rest => trimStart_fuel fuel' rest
      | None => s
      end
  end.

Definition trimStart (s : string) : string := trimStart_fuel (String.length s) s.

Definition all_space (s : string) : bool := negb (truthy (trimStart s)).

Fixpoint trimEnd (s : string) : string :=
  match s with
  | EmptyString => EmptyString
  | String c s' => if all_space s then EmptyString else String c (trimEnd s')
  end.

(** [s.trim()] *)
Definition trim (s : string) : string := trimEnd (trimStart s).

(** [s.replace(/\s+/g, " ")] *)
Fixpoint collapse_spaces_fuel (fuel : nat) (s : string) : string :=
  match fuel with
  | O => s
  | S fuel' =>
      match strip_space s with
      | Some rest => String " " (collapse_spaces_fuel fuel' (trimStart rest))
      | None =>
          match s with
          | EmptyString => EmptyString
          | String c s' => String c (collapse_spaces_fuel fuel' s')
          end
      end
  end.

Definition collapse_spaces (s : string) : string :=
  collapse_spaces_fuel (String.length s) s.

(** [/^https?:\/\//.test(s)] *)
Definition is_http_url (s : string) : bool :=
  String.prefix "http://" s || String.prefix "https://" s.

(** [s.includes(needle)] *)
Fixpoint includes (s needle : string) : bool :=
  String.prefix needle s
  || match s with
     | EmptyString => false
     | String _ s' => includes s' needle
     end.

(** [xs.includes(x)] on an array of strings. *)
Definition array_includes (xs : list string) (x : string) : bool :=
  existsb (String.eqb x) xs.

(** Numbers. *)
Inductive number : Type :=
| NaN
| Num (z : Z)
| Infinity (negative : bool).

Definition isFinite (x : number) : bool :=
  match x with
  | Num _ => true
  | _ => false
  end.

(** [Math.max(x, y)] *)
Definition max (x y : number) : number :=
  match x, y with
  | NaN, _ | _, NaN => NaN
  | Infinity false, _ | _, Infinity false => Infinity false
  | Infinity true, v | v, Infinity true => v
  | Num a, Num b => Num (Z.max a b)
  end.

(** [xs.slice(0, end)]: a negative [end] counts from the end of the array. *)
Definition slice0 {A} (xs : list A) (end_ : number) : list A :=
  match end_ with
  | NaN => []
  | Infinity negative => if negative then [] else xs
  | Num v =>
      if (v <? 0)%Z
      then firstn (Z.to_nat (Z.max (Z.of_nat (List.length xs) + v) 0)) xs
      else firstn (Z.to_nat v) xs
  end.

Definition digit (c : ascii) : option Z :=
  let n := byte c in
  if ((48 <=? n) && (n <=? 57))%N then Some (Z.of_N n - 48)%Z else None.

(** The longest prefix of decimal digits, read as an integer; the flag says
    whether at least one digit was read. *)
Fixpoint digits (acc : Z) (seen : bool) (s : string) : Z * bool :=
  match s with
  | EmptyString => (acc, seen)
  | String c s' =>
      match digit c with
      | Some d => digits (10 * acc + d)%Z true s'
      | None => (acc, seen)
      end
  end.

(** The least integer that rounds to an infinity as a double. *)
Definition overflow_bound : Z := (2 ^ 1024 - 2 ^ 970)%Z.

(** [Number.parseInt(s, 10)].  A finite result is kept as the exact
    integer (the engine rounds it to a double above 2^53, which no use of
    the result in the route can observe). *)
Definition parseInt (s : string) : number :=
  let t := trimStart s in
  let '(negative, body) :=
    match t with
    | String "-" r => (true, r)
    | String "+" r => (false, r)
    | _ => (false, t)
    end in
  let '(value, seen) := digits 0 false body in
  if negb seen then NaN
  else if (overflow_bound <=? value)%Z then Infinity negative
  else Num (if negative then (- value)%Z else value).

(** The base64url alphabet of RFC 4648, indexed by a sextet given most
    significant bit first. *)
Definition alphabet : string :=
  "ABCDEFGHIJKLMNOPQRSTUVWXYZabcdefghijklmnopqrstuvwxyz0123456789-_".

Definition sextet : Type := (bool * bool * bool * bool * bool * bool)%type.

Definition bit (b : bool) : nat := if b then 1 else 0.

Definition sextet_index (x : sextet) : nat :=
  let '(b5, b4, b3, b2, b1, b0) := x in
  32 * bit b5 + 16 * bit b4 + 8 * bit b3 + 4 * bit b2 + 2 * bit b1 + bit b0.

Definition sextet_char (x : sextet) : ascii :=
  match String.get (sextet_index x) alphabet with
  | Some c => c
  | None => "="%char
  end.

(** [Buffer.from(s).toString("base64url")]: three bytes give four
    characters; a tail of one or two bytes gives two or three characters,
    with no padding. *)
Fixpoint base64url (s : string) : string :=
  match s with
  | EmptyString => EmptyString
  | String (Ascii a0 a1 a2 a3 a4 a5 a6 a7) EmptyString =>
      String (sextet_char (a7, a6, a5, a4, a3, a2))
        (String (sextet_char (a1, a0, false, false, false, false)) EmptyString)
  | String (Ascii a0 a1 a2 a3 a4 a5 a6 a7)
      (String (Ascii b0 b1 b2 b3 b4 b5 b6 b7) EmptyString) =>
      String (sextet_char (a7, a6, a5, a4, a3, a2))
        (String (sextet_char (a1, a0, b7, b6, b5, b4))
           (String (sextet_char (b3, b2, b1, b0, false, false)) EmptyString))
  | String (Ascii a0 a1 a2 a3 a4 a5 a6 a7)
      (String (Ascii b0 b1 b2 b3 b4 b5 b6 b7)
         (String (Ascii c0 c1 c2 c3 c4 c5 c6 c7) rest)) =>
      String (sextet_char (a7, a6, a5, a4, a3, a2))
        (String (sextet_char (a1, a0, b7, b6, b5, b4))
           (String (sextet_char (b3, b2, b1, b0, c7, c6))
              (String (sextet_char (c5, c4, c3, c2, c1, c0))
                 (base64url rest))))
  end.

(** [Array.prototype.sort(compare)]: a stable sort (ECMAScript 2019); a NaN
    returned by the comparator counts as +0.  For a comparator that orders
    by a rank every stable sort computes the same array ([sort_unique]
    below), here by insertion; for an inconsistent comparator (one that
    returns NaN) the order is left to the engine: the model fixes one
    choice, which need not be the order a given engine produces, and no
    property below relies on it. *)
Section Sort.
Context {A : Type} (compare : A -> A -> number).

Definition before_or_equal (x y : A) : bool :=
  match compare x y with
  | Num v => (v <=? 0)%Z
  | NaN => true
  | Infinity negative => negative
  end.

Fixpoint insert (x : A) (l : list A) : list A :=
  match l with
  | [] => [x]
  | y :: l' => if before_or_equal x y then x :: l else y :: insert x l'
  end.

Fixpoint sort (l : list A) : list A :=
  match l with
  | [] => []
  | x :: l' => insert x (sort l')
  end.
End Sort.

(** [x - y] on the results of [getTime()]. *)
Definition sub (x y : option Z) : number :=
  match x, y with
  | Some a, Some b => Num (a - b)
  | _, _ => NaN
  end.

(** [Map<string, V>]: the entries in insertion order. *)
Definition Map (V : Type) : Type := list (string * V).

Definition Map_has {V} (m : Map V) (k : string) : bool :=
  existsb (fun entry => String.eqb (fst entry) k) m.

Fixpoint Map_set {V} (m : Map V) (k : string) (v : V) : Map V :=
  match m with
  | [] => [(k, v)]
  | (k', v') :: m' =>
      if String.eqb k' k then (k, v) :: m' else (k', v') :: Map_set m' k v
  end.

Definition Map_values {V} (m : Map V) : list V := List.map snd m.

(** [Promise.all(promises)] of promises that all fulfil: each settlement
    stores its value at the index of its promise; the combined promise
    fulfils with the array of values once every index is stored.  [order]
    lists the indices in the order the promises settle. *)
Fixpoint store {A} (i : nat) (v : A) (slots : list (option A)) : list (option A) :=
  match slots, i with
  | [], _ => []
  | _ :: slots', O => Some v :: slots'
  | s :: slots', S i' => s :: store i' v slots'
  end.

Definition settle {A} (values : list A) (slots : list (option A)) (i : nat)
  : list (option A) :=
  match nth_error values i with
  | Some v => store i v slots
  | None => slots
  end.

Fixpoint collect {A} (slots : list (option A)) : option (list A) :=
  match slots with
  | [] => Some []
  | None :: _ => None
  | Some v :: slots' =>
      match collect slots' with
      | Some vs => Some (v :: vs)
      | None => None
      end
  end.

Definition Promise_all {A} (values : list A) (order : list nat) : option (list A) :=
  collect (fold_left (settle values) order (repeat None (List.length values))).

End Js.

(** ** Data model *)

(** A descriptor of the registry ([EventSource] of the module
    [lib/eventSources], of which the route reads these fields). *)
Module EventSource.
Record t : Type := Build {
  id : string;
  name : string;
  homepage : string;
  feed : string;
  regions : list string;
}.
End EventSource.

(** An entry of the value stored under ["media:content"], as far as
    [typeof m === "object" && m && "url" in m] and [m.url] observe it. *)
Inductive MediaEntry : Type :=
| NotAnObject                                (* a primitive, or null *)
| ObjectWithoutUrl                           (* an object with no key "url" *)
| ObjectWithUrl (url : option string).       (* the key is there; its value *)

(** [Parser.Item], restricted to what the route reads. *)
Module Item.
Record t : Type := Build {
  link : option string;
  title : option string;
  pubDate : option string;
  isoDate : option string;
  contentSnippet : option string;
  content : option string;
  (* [None]: no enclosure; [Some u]: an enclosure whose [url] is [u] *)
  enclosure : option (option string);
  (* [None]: the key is absent or its value is not an array *)
  mediaContent : option (list MediaEntry);
}.
End Item.

(** The result of [parser.parseURL]: [items] may be undefined. *)
Module Feed.
Record t : Type := Build {
  items : option (list Item.t);
}.
End Feed.

Module WorldEvent.
Record t : Type := Build {
  id : string;
  title : string;
  summary : string;
  url : string;
  sourceName : string;
  sourceId : string;
  sourceHomepage : string;
  publishedAt : string;
  regions : list string;
  image : option string;
}.
End WorldEvent.

(** The three query parameters, as [searchParams.get] returns them. *)
Module SearchParams.
Record t : Type := Build {
  query : option string;
  region : option string;
  limit : option string;
}.
End SearchParams.

(** An element of the [sources] field of the response. *)
Module SourceRef.
Record t : Type := Build {
  id : string;
  name : string;
  homepage : string;
}.
End SourceRef.

Module Response.
Record t : Type := Build {
  fetchedAt : string;
  events : list WorldEvent.t;
  sources : list SourceRef.t;
  cacheControl : string;
}.
End Response.

(** The built-ins that are left to the engine.  [Date_parse s] is
    [new Date(s).getTime()], with [None] for NaN (an invalid date);
    [toISOString t] is [new Date(t).toISOString()] for a valid time [t]. *)
Class Engine : Type := {
  toLowerCase : string -> string;
  Date_parse : string -> option Z;
  toISOString : Z -> string;
}.

(** ** The route *)

Definition sanitizeSummary (value : option string) : string :=
  match value with
  | None => ""
  | Some v => if Js.truthy v then Js.trim (Js.collapse_spaces v) else ""
  end.

(** [new Date(s).toISOString()] throws on an invalid date. *)
Definition Date_toISOString {E : Engine} (s : string) : completion string :=
  match Date_parse s with
  | Some t => Normal (toISOString t)
  | None => Throw (RangeError "Invalid time value")
  end.

(** The enclosure step of the image resolution. *)
Definition enclosureImage (item : Item.t) : option string :=
  match Item.enclosure item with
  | Some (Some u) => if Js.truthy u && Js.is_http_url u then Some u else None
  | _ => None
  end.

(** [m => typeof m === "object" && m && "url" in m] *)
Definition exposesUrl (m : MediaEntry) : bool :=
  match m with
  | ObjectWithUrl _ => true
  | _ => false
  end.

(** The media-content step: only the first entry that has a key ["url"] is
    looked at. *)
Definition mediaImage (item : Item.t) : option string :=
  match Item.mediaContent item with
  | Some entries =>
      match List.find exposesUrl entries with
      | Some (ObjectWithUrl (Some u)) =>
          if Js.truthy u && Js.is_http_url u then Some u else None
      | _ => None
      end
  | None => None
  end.

Definition resolveImage (item : Item.t) : option string :=
  match enclosureImage item with
  | Some u => Some u
  | None => mediaImage item
  end.

Definition eventId (source : EventSource.t) (url : string) : string :=
  EventSource.id source ++ ":" ++ Js.base64url url.

Definition normalizeEvent {E : Engine} (source : EventSource.t) (item : Item.t)
  : completion (option WorldEvent.t) :=
  let url := Js.nullish (Item.link item) "" in
  let title := option_map Js.trim (Item.title item) in
  publishedAt <-
    match Item.isoDate item with
    | Some iso => Normal (Some iso)
    | None =>
        match Item.pubDate item with
        | Some d =>
            if Js.truthy d
            then (iso <- Date_toISOString d ;; Normal (Some iso))
            else Normal None
        | None => Normal None
        end
    end ;;
  match title, publishedAt with
  | Some title, Some publishedAt =>
      if negb (Js.truthy title) || negb (Js.truthy url)
         || negb (Js.truthy publishedAt)
      then Normal None
      else
        let description :=
          Js.or_else (sanitizeSummary (Item.contentSnippet item))
                     (sanitizeSummary (Item.content item)) in
        Normal (Some {|
          WorldEvent.id := eventId source url;
          WorldEvent.title := title;
          WorldEvent.summary := description;
          WorldEvent.url := url;
          WorldEvent.sourceId := EventSource.id source;
          WorldEvent.sourceName := EventSource.name source;
          WorldEvent.sourceHomepage := EventSource.homepage source;
          WorldEvent.publishedAt := publishedAt;
          WorldEvent.regions := EventSource.regions source;
          WorldEvent.image := resolveImage item;
        |})
  | _, _ => Normal None
  end.

(** [.filter((event) => Boolean(event))] *)
Fixpoint keepEvents (xs : list (option WorldEvent.t)) : list WorldEvent.t :=
  match xs with
  | [] => []
  | Some e :: xs' => e :: keepEvents xs'
  | None :: xs' => keepEvents xs'
  end.

(** The [limit] of the route. *)
Definition limitOf (params : SearchParams.t) : Js.number :=
  let limitParam := Js.parseInt (Js.nullish (SearchParams.limit params) "") in
  if Js.isFinite limitParam then Js.max limitParam (Js.Num 10) else Js.Num 60.

(** The [region] of the route. *)
Definition regionOf {E : Engine} (params : SearchParams.t) : string :=
  match option_map toLowerCase (SearchParams.region params) with
  | Some regionParam =>
      if Js.truthy regionParam && negb (String.eqb regionParam "global")
      then regionParam
      else "global"
  | None => "global"
  end.

(** The [sources] of the route. *)
Definition selectSources {E : Engine} (EVENT_SOURCES : list EventSource.t)
    (params : SearchParams.t) : list EventSource.t :=
  let region := regionOf params in
  if String.eqb region "global"
  then EVENT_SOURCES
  else List.filter
         (fun source => Js.array_includes (EventSource.regions source) region)
         EVENT_SOURCES.

(** The body of the [try] block of the callback given to [sources.map]. *)
Definition fetchAndNormalize {E : Engine}
    (parseURL : string -> completion Feed.t) (source : EventSource.t)
  : completion (list WorldEvent.t) :=
  feed <- parseURL (EventSource.feed source) ;;
  normalized <- map_throwing (normalizeEvent source)
                  (Js.nullish (Feed.items feed) []) ;;
  Normal (keepEvents normalized).

(** The callback: the value its promise fulfils with. *)
Definition fetchSource {E : Engine}
    (parseURL : string -> completion Feed.t) (source : EventSource.t)
  : list WorldEvent.t :=
  try_catch (fetchAndNormalize parseURL source) (fun _ => []).

(** The loop that fills the map [unique]. *)
Definition addUnlessSeen (unique : Js.Map WorldEvent.t) (event : WorldEvent.t)
  : Js.Map WorldEvent.t :=
  if Js.Map_has unique (WorldEvent.url event)
  then unique
  else Js.Map_set unique (WorldEvent.url event) event.

Definition dedupe (flattened : list WorldEvent.t) : Js.Map WorldEvent.t :=
  fold_left addUnlessSeen flattened [].

(** The query filter. *)
Definition queryOf {E : Engine} (params : SearchParams.t) : option string :=
  option_map (fun q => toLowerCase (Js.trim q)) (SearchParams.query params).

Definition matchesQuery {E : Engine} (query : string) (event : WorldEvent.t) : bool :=
  let haystack :=
    toLowerCase (WorldEvent.title event ++ " " ++ WorldEvent.summary event) in
  Js.includes haystack query.

Definition filterByQuery {E : Engine} (query : option string)
    (events : list WorldEvent.t) : list WorldEvent.t :=
  if Js.truthy_opt query
  then List.filter (matchesQuery (Js.nullish query "")) events
  else events.

(** [new Date(e.publishedAt).getTime()] *)
Definition getTime {E : Engine} (event : WorldEvent.t) : option Z :=
  Date_parse (WorldEvent.publishedAt event).

(** The comparator given to [events.sort]. *)
Definition byRecency {E : Engine} (a b : WorldEvent.t) : Js.number :=
  Js.sub (getTime b) (getTime a).

Definition sourceRef (source : EventSource.t) : SourceRef.t :=
  {| SourceRef.id := EventSource.id source;
     SourceRef.name := EventSource.name source;
     SourceRef.homepage := EventSource.homepage source |}.

(** The events before the sort: deduplicated and filtered by the query. *)
Definition unsorted {E : Engine} (params : SearchParams.t)
    (results : list (list WorldEvent.t)) : list WorldEvent.t :=
  filterByQuery (queryOf params) (Js.Map_values (dedupe (List.concat results))).

(** The route from the values of [Promise.all] on. *)
Definition respond {E : Engine} (now : string) (params : SearchParams.t)
    (sources : list EventSource.t) (results : list (list WorldEvent.t))
  : Response.t :=
  let events := Js.sort byRecency (unsorted params results) in
  {| Response.fetchedAt := now;
     Response.events := Js.slice0 events (limitOf params);
     Response.sources := List.map sourceRef sources;
     Response.cacheControl := "no-store, max-age=0" |}.

(** [GET]: [now] is the reading of the clock for [fetchedAt]; the values of
    [Promise.all] are taken in the order of [sources]. *)
Definition GET {E : Engine} (EVENT_SOURCES : list EventSource.t)
    (parseURL : string -> completion Feed.t) (now : string)
    (params : SearchParams.t) : Response.t :=
  let sources := selectSources EVENT_SOURCES params in
  respond now params sources (List.map (fetchSource parseURL) sources).

(** [GET] with the scheduling of the fetches explicit: [order] is the order
    in which the promises of the sources settle; the handler resumes after
    [await] only when [Promise.all] has fulfilled. *)
Definition GET_scheduled {E : Engine} (EVENT_SOURCES : list EventSource.t)
    (parseURL : string -> completion Feed.t) (now : string) (order : list nat)
    (params : SearchParams.t) : option Response.t :=
  let sources := selectSources EVENT_SOURCES params in
  option_map (respond now params sources)
    (Js.Promise_all (List.map (fetchSource parseURL) sources) order).

(** ** The page that calls the route

    The home page ([page.tsx]) builds the request of the route in
    [fetchEvents].  The query string it writes with [URLSearchParams] is
    read back by the route with [searchParams.get]; the model identifies the
    two ends (serializing and parsing a parameter gives its value back). *)

Module RegionOption.
Record t : Type := Build {
  id : string;
  label : string;
  description : string;
}.
End RegionOption.

Definition REGION_OPTIONS : list RegionOption.t :=
  [ RegionOption.Build "global" "Global Pulse"
      "Signals from every newsroom we track.";
    RegionOption.Build "americas" "Americas" "North & South America focus.";
    RegionOption.Build "europe" "Europe"
      "Continental updates & European affairs.";
    RegionOption.Build "asia" "Asia-Pacific"
      "Asia-Pacific geopolitical & economic moves.";
    RegionOption.Build "middle-east" "Middle East"
      "Regional diplomacy, security, and energy.";
    RegionOption.Build "africa" "Africa"
      "Across the continent, politics to progress." ].

(** [isFiltered] of the page, for the id of the selected region and the
    query of the search box. *)
Definition isFiltered (regionId query : string) : bool :=
  negb (String.eqb regionId "global")
  || (0 <? String.length (Js.trim query))%nat.

(** The parameters [fetchEvents] sends, as the route reads them. *)
Definition requestParams (regionId query : string) : SearchParams.t :=
  {| SearchParams.query :=
       if Js.truthy (Js.trim query) then Some (Js.trim query) else None;
     SearchParams.region :=
       if negb (String.eqb regionId "global") then Some regionId else None;
     SearchParams.limit := Some "60" |}.

(** ** A concrete engine, registry and network for the examples *)

Module Sample.

Definition lowerChar (c : ascii) : ascii :=
  let n := Js.byte c in
  if ((65 <=? n) && (n <=? 90))%N then ascii_of_N (n + 32) else c.

(** [toLowerCase] on ASCII text. *)
Fixpoint asciiLower (s : string) : string :=
  match s with
  | EmptyString => EmptyString
  | String c s' => String (lowerChar c) (asciiLower s')
  end.

Definition digitChar (d : Z) : ascii := ascii_of_N (Z.to_N (48 + d)).

(** The last [width] decimal digits of a natural [v]. *)
Fixpoint decimal (width : nat) (v : Z) : string :=
  match width with
  | O => EmptyString
  | S w => decimal w (v / 10) ++ String (digitChar (v mod 10)) EmptyString
  end.

Definition yearString (y : Z) : string :=
  if ((0 <=? y) && (y <=? 9999))%Z then decimal 4 y
  else (if (y <? 0)%Z then "-" else "+") ++ decimal 6 (Z.abs y).

(** [toISOString] of a time value in milliseconds since the epoch. *)
Definition isoString (t : Z) : string :=
  (let days := t / 86400000 in
   let ms := t mod 86400000 in
   let z := days + 719468 in
   let era := z / 146097 in
   let doe := z - era * 146097 in
   let yoe := (doe - doe / 1460 + doe / 36524 - doe / 146096) / 365 in
   let doy := doe - (365 * yoe + yoe / 4 - yoe / 100) in
   let mp := (5 * doy + 2) / 153 in
   let d := doy - (153 * mp + 2) / 5 + 1 in
   let m := if mp <? 10 then mp + 3 else mp - 9 in
   let y := yoe + era * 400 + (if m <=? 2 then 1 else 0) in
   (yearString y ++ "-" ++ decimal 2 m ++ "-" ++ decimal 2 d ++ "T"
    ++ decimal 2 (ms / 3600000) ++ ":" ++ decimal 2 (ms / 60000 mod 60) ++ ":"
    ++ decimal 2 (ms / 1000 mod 60) ++ "." ++ decimal 3 (ms mod 1000)
    ++ "Z")%string)%Z.

(** The date strings of the examples with their time values; every other
    string the examples pass to [Date.parse] is not a date. *)
Definition dateTable : list (string * Z) :=
  [ ("2024-01-01T00:00:00Z", 1704067200000%Z);
    ("2024-01-02T00:00:00Z", 1704153600000%Z);
    ("2024-01-03T00:00:00Z", 1704240000000%Z);
    ("2024-01-02T00:00:00.000Z", 1704153600000%Z);
    ("Tue, 02 Jan 2024 00:00:00 GMT", 1704153600000%Z) ].

Definition parseDate (s : string) : option Z :=
  option_map snd (List.find (fun entry => String.eqb (fst entry) s) dateTable).

Definition engine : Engine := {|
  toLowerCase := asciiLower;
  Date_parse := parseDate;
  toISOString := isoString;
|}.

Definition source (id region : string) : EventSource.t :=
  {| EventSource.id := id;
     EventSource.name := "Source " ++ id;
     EventSource.homepage := "https://" ++ id ++ ".example";
     EventSource.feed := "https://" ++ id ++ ".example/feed";
     EventSource.regions := [region] |}.

Definition S1 : EventSource.t := source "s1" "europe".
Definition S2 : EventSource.t := source "s2" "asia".
Definition registry : list EventSource.t := [S1; S2].

(** An item with a link, a title and an ISO date, and nothing else. *)
Definition item (link title isoDate : string) : Item.t :=
  {| Item.link := Some link;
     Item.title := Some title;
     Item.pubDate := None;
     Item.isoDate := Some isoDate;
     Item.contentSnippet := None;
     Item.content := None;
     Item.enclosure := None;
     Item.mediaContent := None |}.

Definition euSummit : Item.t :=
  item "https://a/1" "EU Summit" "2024-01-02T00:00:00Z".
Definition asiaTrade : Item.t :=
  item "https://b/2" "Asia Trade Talks" "2024-01-03T00:00:00Z".

(** A network given by a table from feed addresses to outcomes; an address
    that is not in the table cannot be reached. *)
Definition network (table : list (string * completion Feed.t)) (address : string)
  : completion Feed.t :=
  match List.find (fun entry => String.eqb (fst entry) address) table with
  | Some entry => snd entry
  | None => Throw (OtherError "getaddrinfo ENOTFOUND")
  end.

Definition serves (source : EventSource.t) (items : list Item.t)
  : string * completion Feed.t :=
  (EventSource.feed source, Normal {| Feed.items := Some items |}).

Definition net : string -> completion Feed.t :=
  network [serves S1 [euSummit]; serves S2 [asiaTrade]].

(** An item whose only date is a publication date that is no date. *)
Definition undated : Item.t :=
  {| Item.link := Some "https://a/2";
     Item.title := Some "Summit venue";
     Item.pubDate := Some "TBA";
     Item.isoDate := None;
     Item.contentSnippet := None;
     Item.content := None;
     Item.enclosure := None;
     Item.mediaContent := None |}.

Definition netUndated : string -> completion Feed.t :=
  network [serves S1 [euSummit; undated]; serves S2 [asiaTrade]].

(** The feed of [S1] cannot be reached. *)
Definition netDown : string -> completion Feed.t :=
  network [serves S2 [asiaTrade]].

(** Both sources carry the same wire story. *)
Definition wireS1 : Item.t :=
  item "https://wire/1" "Wire story (first copy)" "2024-01-02T00:00:00Z".
Definition wireS2 : Item.t :=
  item "https://wire/1" "Wire story (second copy)" "2024-01-03T00:00:00Z".

Definition netShared : string -> completion Feed.t :=
  network [serves S1 [wireS1]; serves S2 [wireS2; asiaTrade]].

(** Events that share a publication time. *)
Definition netTies : string -> completion Feed.t :=
  network
    [serves S1 [item "https://a/1" "a" "2024-01-02T00:00:00Z";
                item "https://a/2" "b" "2024-01-03T00:00:00Z"];
     serves S2 [item "https://b/1" "c" "2024-01-02T00:00:00Z";
                item "https://b/2" "d" "2024-01-01T00:00:00Z"]].


(** A feed of twelve items. *)
Definition numbered (n : nat) : Item.t :=
  item ("https://a/" ++ decimal 2 (Z.of_nat n)) ("Item " ++ decimal 2 (Z.of_nat n))
    "2024-01-02T00:00:00Z".

Definition netTwelve : string -> completion Feed.t :=
  network [serves S1 (List.map numbered (seq 1 12))].

(** A registry whose region tag is capitalised. *)
Definition S3 : EventSource.t := source "s3" "Europe".

(** An item whose media list starts with an entry that is not an HTTP(S)
    address. *)
Definition withMedia : Item.t :=
  {| Item.link := Some "https://a/3";
     Item.title := Some "Illustrated";
     Item.pubDate := None;
     Item.isoDate := Some "2024-01-02T00:00:00Z";
     Item.contentSnippet := None;
     Item.content := None;
     Item.enclosure := None;
     Item.mediaContent :=
       Some [NotAnObject;
             ObjectWithUrl (Some "ftp://media.example/1.png");
             ObjectWithUrl (Some "https://media.example/2.png")] |}.

(** An item with an enclosure and a media list that both qualify. *)
Definition withEnclosure : Item.t :=
  {| Item.link := Some "https://a/4";
     Item.title := Some "Enclosed";
     Item.pubDate := Some "Tue, 02 Jan 2024 00:00:00 GMT";
     Item.isoDate := None;
     Item.contentSnippet := Some "  A   snippet ";
     Item.content := Some "<p>markup</p>";
     Item.enclosure := Some (Some "http://media.example/e.jpg");
     Item.mediaContent :=
       Some [ObjectWithUrl (Some "https://media.example/2.png")] |}.

(** An item whose title is white space only. *)
Definition untitled : Item.t :=
  {| Item.link := Some "https://a/5";
     Item.title := Some "   ";
     Item.pubDate := Some "Tue, 02 Jan 2024 00:00:00 GMT";
     Item.isoDate := Some "2024-01-02T00:00:00Z";
     Item.contentSnippet := Some "text";
     Item.content := None;
     Item.enclosure := None;
     Item.mediaContent := None |}.

Definition params (query region limit : option string) : SearchParams.t :=
  {| SearchParams.query := query;
     SearchParams.region := region;
     SearchParams.limit := limit |}.

Definition noParams : SearchParams.t := params None None None.

Definition titles (r : Response.t) : list string :=
  List.map WorldEvent.title (Response.events r).

End Sample.

(** ** Notions used in the statements *)

(** The [try] block of the callback throws for this source: the fetch
    fails, the document does not parse, or a normalization throws. *)
Definition fails {E : Engine} (parseURL : string -> completion Feed.t)
    (source : EventSource.t) : bool :=
  match fetchAndNormalize parseURL source with
  | Throw _ => true
  | Normal _ => false
  end.

(** The publication date of the event denotes an instant. *)
Definition parseable {E : Engine} (e : WorldEvent.t) : Prop := getTime e <> None.



(** Reading of the region filter that compares the tags of a source with
    the requested region ignoring case. *)
Definition hasRegionIgnoringCase {E : Engine} (source : EventSource.t)
    (region : string) : bool :=
  existsb (fun tag => String.eqb (toLowerCase tag) (toLowerCase region))
    (EventSource.regions source).

(** Reading of the media step that takes the first entry whose address
    matches the HTTP(S) pattern. *)
Definition firstMatchingMedia (entries : list MediaEntry) : option string :=
  match List.find
          (fun m => match m with
                    | ObjectWithUrl (Some u) => Js.is_http_url u
                    | _ => false
                    end) entries with
  | Some (ObjectWithUrl (Some u)) => Some u
  | _ => None
  end.

(** ** Notions used in the further properties *)

(** An absent or white-space-only string. *)
Definition blank (o : option string) : bool :=
  match o with
  | Some v => Js.all_space v
  | None => true
  end.

(** Every white space of the string is one ASCII space that is followed by
    no white space. *)
Definition Collapsed (s : string) : Prop :=
  forall pre t rest, s = (pre ++ t)%string -> Js.strip_space t = Some rest ->
    t = String " " rest /\ Js.strip_space rest = None.

(** The parameters with the query taken out. *)
Definition withoutQuery (params : SearchParams.t) : SearchParams.t :=
  {| SearchParams.query := None;
     SearchParams.region := SearchParams.region params;
     SearchParams.limit := SearchParams.limit params |}.

(** The decimal numeral of a natural number, as [String(n)] writes it. *)
Definition numeral (n : nat) : string :=
  NilZero.string_of_uint (Nat.to_uint n).

(** The string does not start with a decimal digit. *)
Definition noLeadingDigit (s : string) : Prop :=
  match s with
  | EmptyString => True
  | String c _ => Js.digit c = None
  end.

(** ** Runs of the model *)

Example isoString_2024 :
  Sample.isoString 1704153600000 = "2024-01-02T00:00:00.000Z"
  /\ Sample.isoString 0 = "1970-01-01T00:00:00.000Z"
  /\ Sample.isoString (-1) = "1969-12-31T23:59:59.999Z"
  /\ Sample.isoString 951782400000 = "2000-02-29T00:00:00.000Z".
Proof. repeat split; vm_compute; reflexivity. Qed.

Example parseInt_runs :
  Js.parseInt "" = Js.NaN /\ Js.parseInt "abc" = Js.NaN
  /\ Js.parseInt "0" = Js.Num 0 /\ Js.parseInt "  42px" = Js.Num 42
  /\ Js.parseInt "-7" = Js.Num (-7) /\ Js.parseInt "+" = Js.NaN.
Proof. repeat split; vm_compute; reflexivity. Qed.

Example base64url_runs :
  Js.base64url "" = "" /\ Js.base64url "f" = "Zg" /\ Js.base64url "fo" = "Zm8"
  /\ Js.base64url "foo" = "Zm9v" /\ Js.base64url "foob" = "Zm9vYg"
  /\ Js.base64url "https://a/1?~" = "aHR0cHM6Ly9hLzE_fg".
Proof. repeat split; vm_compute; reflexivity. Qed.

Example sanitizeSummary_runs :
  sanitizeSummary (Some ("  a " ++ String (ascii_of_N 10) (String (ascii_of_N 9) " b  "))%string)
  = "a b"
  /\ sanitizeSummary None = "" /\ sanitizeSummary (Some "   ") = "".
Proof. repeat split; vm_compute; reflexivity. Qed.

Example normalizeEvent_run :
  normalizeEvent (E := Sample.engine) Sample.S1 Sample.withEnclosure
  = Normal (Some {|
      WorldEvent.id := "s1:aHR0cHM6Ly9hLzQ";
      WorldEvent.title := "Enclosed";
      WorldEvent.summary := "A snippet";
      WorldEvent.url := "https://a/4";
      WorldEvent.sourceName := "Source s1";
      WorldEvent.sourceId := "s1";
      WorldEvent.sourceHomepage := "https://s1.example";
      WorldEvent.publishedAt := "2024-01-02T00:00:00.000Z";
      WorldEvent.regions := ["europe"];
      WorldEvent.image := Some "http://media.example/e.jpg" |}).
Proof. vm_compute. reflexivity. Qed.

(** The scenario of the specification: two sources, one item each. *)
Example scenario_no_filter :
  Sample.titles (GET (E := Sample.engine) Sample.registry Sample.net "now" Sample.noParams)
  = ["Asia Trade Talks"; "EU Summit"].
Proof. vm_compute. reflexivity. Qed.

Example scenario_region_europe :
  Sample.titles (GET (E := Sample.engine) Sample.registry Sample.net "now"
                   (Sample.params None (Some "europe") None))
  = ["EU Summit"].
Proof. vm_compute. reflexivity. Qed.

Example scenario_query_trade :
  Sample.titles (GET (E := Sample.engine) Sample.registry Sample.net "now"
                   (Sample.params (Some "trade") None None))
  = ["Asia Trade Talks"].
Proof. vm_compute. reflexivity. Qed.

(** ** Facts about lists *)

Lemma NoDup_map_filter {A B} (f : A -> B) (p : A -> bool) (l : list A) :
  NoDup (List.map f l) -> NoDup (List.map f (List.filter p l)).
Proof.
  induction l as [|x l IH]; simpl; intros Hnd; [constructor|].
  inversion Hnd as [|y ys Hnotin Hrest]; subst.
  destruct (p x); simpl; auto.
  constructor; auto.
  intros Hin. apply Hnotin.
  apply in_map_iff in Hin. destruct Hin as [z [Hz Hin]].
  apply filter_In in Hin. apply in_map_iff. exists z. tauto.
Qed.

Lemma In_firstn {A} (n : nat) (l : list A) (x : A) :
  In x (firstn n l) -> In x l.
Proof.
  revert l. induction n as [|n IH]; intros [|y l]; simpl; try tauto.
  intros [H|H]; auto.
Qed.

Lemma NoDup_map_firstn {A B} (f : A -> B) (n : nat) (l : list A) :
  NoDup (List.map f l) -> NoDup (List.map f (firstn n l)).
Proof.
  revert l. induction n as [|n IH]; intros [|x l]; simpl; intros Hnd;
    try constructor.
  - inversion Hnd; subst. intros Hin. apply in_map_iff in Hin.
    destruct Hin as [z [Hz Hin]]. apply In_firstn in Hin.
    match goal with H : ~ In _ _ |- _ => apply H end.
    apply in_map_iff. exists z. tauto.
  - inversion Hnd; subst. auto.
Qed.



Lemma filter_swap {A} (p q : A -> bool) (l : list A) :
  List.filter p (List.filter q l) = List.filter q (List.filter p l).
Proof.
  induction l as [|x l IH]; simpl; [reflexivity|].
  destruct (p x) eqn:Hp, (q x) eqn:Hq; simpl; rewrite ?Hp, ?Hq, IH; reflexivity.
Qed.

Lemma concat_map_filter_nil {A B} (f : A -> list B) (keep : A -> bool)
    (l : list A) :
  (forall x, In x l -> keep x = false -> f x = []) ->
  List.concat (List.map f (List.filter keep l)) = List.concat (List.map f l).
Proof.
  induction l as [|x l IH]; simpl; intros Hnil; [reflexivity|].
  destruct (keep x) eqn:Hk; simpl.
  - rewrite IH; auto.
  - rewrite (Hnil x) by auto. simpl. apply IH. auto.
Qed.

Lemma append_cancel_l (p a b : string) : (p ++ a = p ++ b)%string -> a = b.
Proof.
  induction p as [|c p IH]; simpl; intros H; [exact H|].
  injection H as H. auto.
Qed.

(** ** Facts about the built-ins *)

Lemma array_includes_In (xs : list string) (x : string) :
  Js.array_includes xs x = true <-> In x xs.
Proof.
  unfold Js.array_includes. rewrite existsb_exists. split.
  - intros [y [Hin Heq]]. apply String.eqb_eq in Heq. now subst.
  - intros Hin. exists x. split; [exact Hin | apply String.eqb_refl].
Qed.

Lemma is_http_url_truthy (s : string) : Js.is_http_url s = true -> Js.truthy s = true.
Proof. destruct s; [discriminate | reflexivity]. Qed.

(** The fuel of [trimStart] and of [collapse_spaces] is enough: a stripped
    code point shortens the string. *)
Lemma strip_space_shorter (s rest : string) :
  Js.strip_space s = Some rest -> String.length rest < String.length s.
Proof.
  unfold Js.strip_space.
  destruct s as [|c [|d [|e s3]]]; simpl;
    repeat match goal with
           | |- context [if ?b then _ else _] => destruct b
           end;
    intros H; try discriminate H; injection H as <-; simpl; lia.
Qed.

Lemma trimStart_fuel_length (fuel : nat) (s : string) :
  String.length (Js.trimStart_fuel fuel s) <= String.length s.
Proof.
  revert s. induction fuel as [|fuel IH]; intros s; simpl; [lia|].
  destruct (Js.strip_space s) as [rest|] eqn:Hs; [|lia].
  apply strip_space_shorter in Hs. specialize (IH rest). lia.
Qed.

Lemma trimStart_fuel_done (fuel : nat) (s : string) :
  String.length s <= fuel -> Js.strip_space (Js.trimStart_fuel fuel s) = None.
Proof.
  revert s. induction fuel as [|fuel IH]; intros s Hlen; simpl.
  - destruct s; [reflexivity | simpl in Hlen; lia].
  - destruct (Js.strip_space s) as [rest|] eqn:Hs; [|exact Hs].
    apply IH. apply strip_space_shorter in Hs. lia.
Qed.

(** The result of [trimStart] starts with no white space. *)
Lemma trimStart_done (s : string) : Js.strip_space (Js.trimStart s) = None.
Proof. apply trimStart_fuel_done. lia. Qed.

Lemma collapse_spaces_fuel_enough (n m : nat) (s : string) :
  String.length s <= n -> String.length s <= m ->
  Js.collapse_spaces_fuel n s = Js.collapse_spaces_fuel m s.
Proof.
  revert m s. induction n as [|n IH]; intros m s Hn Hm.
  - destruct s; [now destruct m | simpl in Hn; lia].
  - destruct m as [|m]; [destruct s; [reflexivity | simpl in Hm; lia]|].
    simpl. destruct (Js.strip_space s) as [rest|] eqn:Hs.
    + f_equal. apply strip_space_shorter in Hs.
      pose proof (trimStart_fuel_length (String.length rest) rest).
      unfold Js.trimStart. apply IH; lia.
    + destruct s as [|c s']; [reflexivity|].
      f_equal. simpl in Hn, Hm. apply IH; lia.
Qed.

Lemma slice0_firstn {A} (xs : list A) (end_ : Js.number) :
  exists k, Js.slice0 xs end_ = firstn k xs.
Proof.
  destruct end_ as [|v|[|]]; simpl.
  - exists 0. reflexivity.
  - destruct (v <? 0)%Z; eexists; reflexivity.
  - exists 0. reflexivity.
  - exists (List.length xs). symmetry. apply firstn_all.
Qed.

Lemma slice0_length {A} (xs : list A) (v : Z) :
  (0 <= v)%Z -> (Z.of_nat (List.length (Js.slice0 xs (Js.Num v))) <= v)%Z.
Proof.
  intros Hv. simpl. destruct (Z.ltb_spec v 0); [lia|].
  pose proof (firstn_le_length (Z.to_nat v) xs). lia.
Qed.

Section SortFacts.
Context {A : Type} (compare : A -> A -> Js.number).

Lemma insert_perm (x : A) (l : list A) :
  Permutation (Js.insert compare x l) (x :: l).
Proof.
  induction l as [|y l IH]; simpl; [reflexivity|].
  destruct (Js.before_or_equal compare x y); [reflexivity|].
  rewrite IH. apply perm_swap.
Qed.

Lemma sort_perm (l : list A) : Permutation (Js.sort compare l) l.
Proof.
  induction l as [|x l IH]; simpl; [reflexivity|].
  rewrite insert_perm. now constructor.
Qed.

(** A comparator that agrees with a ranking of the elements it is given. *)
Variable rank : A -> Z.
Variable good : A -> Prop.
Hypothesis compare_rank : forall x y, good x -> good y ->
  Js.before_or_equal compare x y = (rank x <=? rank y)%Z.

Let ranked (a b : A) : Prop := (rank a <= rank b)%Z.

Lemma insert_sorted (x : A) (l : list A) :
  good x -> Forall good l ->
  StronglySorted ranked l -> StronglySorted ranked (Js.insert compare x l).
Proof.
  intros Hx. induction l as [|y l IH]; simpl; intros Hgood Hs.
  - repeat constructor.
  - inversion Hgood as [|? ? Hy Hl]; subst.
    inversion Hs as [|? ? Hrest Hall]; subst.
    rewrite (compare_rank x y Hx Hy).
    destruct (Z.leb_spec (rank x) (rank y)) as [Hle|Hgt].
    + constructor; [exact Hs|]. constructor; [exact Hle|].
      eapply Forall_impl; [|exact Hall]. unfold ranked. intros; lia.
    + constructor; [now apply IH|].
      apply Forall_forall. intros z Hz.
      apply (Permutation_in _ (insert_perm x l)) in Hz.
      destruct Hz as [<-|Hz]; [unfold ranked; lia|].
      revert z Hz. now apply Forall_forall.
Qed.

Lemma sort_good (l : list A) : Forall good l -> Forall good (Js.sort compare l).
Proof.
  intros H. apply Forall_forall. intros x Hx.
  apply (Permutation_in _ (sort_perm l)) in Hx.
  revert x Hx. now apply Forall_forall.
Qed.

Lemma sort_sorted (l : list A) :
  Forall good l -> StronglySorted ranked (Js.sort compare l).
Proof.
  induction l as [|x l IH]; simpl; intros Hgood; [constructor|].
  inversion Hgood; subst.
  apply insert_sorted; auto using sort_good.
Qed.

Lemma insert_stable (v : Z) (x : A) (l : list A) :
  good x -> Forall good l ->
  List.filter (fun y => (rank y =? v)%Z) (Js.insert compare x l)
  = List.filter (fun y => (rank y =? v)%Z) (x :: l).
Proof.
  intros Hx. induction l as [|y l IH]; intros Hgood; [reflexivity|].
  inversion Hgood as [|? ? Hy Hl]; subst. simpl.
  rewrite (compare_rank x y Hx Hy).
  destruct (Z.leb_spec (rank x) (rank y)) as [Hle|Hgt]; [reflexivity|].
  simpl. rewrite (IH Hl). simpl.
  destruct (Z.eqb_spec (rank x) v), (Z.eqb_spec (rank y) v); try reflexivity.
  lia.
Qed.

Lemma sort_stable (v : Z) (l : list A) :
  Forall good l ->
  List.filter (fun y => (rank y =? v)%Z) (Js.sort compare l)
  = List.filter (fun y => (rank y =? v)%Z) l.
Proof.
  induction l as [|x l IH]; intros Hgood; [reflexivity|].
  inversion Hgood; subst. simpl Js.sort.
  rewrite insert_stable; auto using sort_good.
  simpl. now rewrite IH.
Qed.

(** A list in rank order is determined by the sequences of its elements of
    each rank. *)
Lemma sorted_stable_unique (l1 l2 : list A) :
  StronglySorted ranked l1 -> StronglySorted ranked l2 ->
  (forall v, List.filter (fun y => (rank y =? v)%Z) l1
             = List.filter (fun y => (rank y =? v)%Z) l2) ->
  l1 = l2.
Proof.
  revert l2. induction l1 as [|x l1 IH]; intros [|y l2] Hs1 Hs2 Hf.
  - reflexivity.
  - specialize (Hf (rank y)). simpl in Hf. rewrite Z.eqb_refl in Hf.
    discriminate Hf.
  - specialize (Hf (rank x)). simpl in Hf. rewrite Z.eqb_refl in Hf.
    discriminate Hf.
  - inversion Hs1 as [|? ? Hs1' Hall1]; subst.
    inversion Hs2 as [|? ? Hs2' Hall2]; subst.
    rewrite Forall_forall in Hall1, Hall2.
    assert (Hxy : (rank y <= rank x)%Z).
    { assert (Hin : In x (y :: l2)).
      { pose proof (Hf (rank x)) as H. simpl in H. rewrite Z.eqb_refl in H.
        assert (Hx : In x (List.filter (fun z => (rank z =? rank x)%Z) (y :: l2))).
        { simpl. rewrite <- H. now left. }
        now apply filter_In in Hx. }
      destruct Hin as [->|Hin]; [lia | now apply Hall2]. }
    assert (Hyx : (rank x <= rank y)%Z).
    { assert (Hin : In y (x :: l1)).
      { pose proof (Hf (rank y)) as H. simpl in H. rewrite Z.eqb_refl in H.
        assert (Hy : In y (List.filter (fun z => (rank z =? rank y)%Z) (x :: l1))).
        { simpl. rewrite H. now left. }
        now apply filter_In in Hy. }
      destruct Hin as [->|Hin]; [lia | now apply Hall1]. }
    assert (Heq : x = y).
    { pose proof (Hf (rank x)) as H. simpl in H. rewrite Z.eqb_refl in H.
      replace (rank y =? rank x)%Z with true in H
        by (symmetry; apply Z.eqb_eq; lia).
      now injection H. }
    subst y. f_equal. apply IH; auto.
    intros v. specialize (Hf v). simpl in Hf.
    destruct (rank x =? v)%Z; [now injection Hf | exact Hf].
Qed.

(** Hence every sort that is stable and orders by the comparator returns
    what [Js.sort] returns. *)
Lemma sort_unique (l sorted : list A) :
  Forall good l ->
  StronglySorted ranked sorted ->
  (forall v, List.filter (fun y => (rank y =? v)%Z) sorted
             = List.filter (fun y => (rank y =? v)%Z) l) ->
  sorted = Js.sort compare l.
Proof.
  intros Hgood Hs Hf. apply sorted_stable_unique; [exact Hs | |].
  - now apply sort_sorted.
  - intros v. rewrite Hf. symmetry. now apply sort_stable.
Qed.

End SortFacts.

Lemma sextet_char_inj (x y : Js.sextet) : Js.sextet_char x = Js.sextet_char y -> x = y.
Proof.
  destruct x as [[[[[x5 x4] x3] x2] x1] x0], y as [[[[[y5 y4] y3] y2] y1] y0].
  destruct x5, x4, x3, x2, x1, x0, y5, y4, y3, y2, y1, y0;
    intros H; first [reflexivity | discriminate H].
Qed.

Lemma base64url_inj_bounded (n : nat) (a b : string) :
  String.length a <= n -> Js.base64url a = Js.base64url b -> a = b.
Proof.
  revert a b. induction n as [|n IH]; intros a b Hlen H.
  - destruct a; [|simpl in Hlen; lia].
    destruct b as [|[] [|[] [|[] ?]]]; [reflexivity | discriminate H ..].
  - destruct a as [|[a0 a1 a2 a3 a4 a5 a6 a7]
                     [|[b0 b1 b2 b3 b4 b5 b6 b7]
                        [|[c0 c1 c2 c3 c4 c5 c6 c7] ra]]];
    destruct b as [|[a0' a1' a2' a3' a4' a5' a6' a7']
                     [|[b0' b1' b2' b3' b4' b5' b6' b7']
                        [|[c0' c1' c2' c3' c4' c5' c6' c7'] rb]]];
    simpl in H; try discriminate H; try reflexivity.
    + injection H as H1 H2.
      apply sextet_char_inj in H1, H2. congruence.
    + injection H as H1 H2 H3.
      apply sextet_char_inj in H1, H2, H3. congruence.
    + injection H as H1 H2 H3 H4 Hrest.
      apply sextet_char_inj in H1, H2, H3, H4.
      apply IH in Hrest; [congruence | simpl in Hlen; lia].
Qed.

Lemma base64url_inj (a b : string) : Js.base64url a = Js.base64url b -> a = b.
Proof. apply (base64url_inj_bounded (String.length a)). lia. Qed.

Lemma Map_has_app {V} (m1 m2 : Js.Map V) (k : string) :
  Js.Map_has (m1 ++ m2) k = Js.Map_has m1 k || Js.Map_has m2 k.
Proof. apply existsb_app. Qed.

Lemma Map_has_keys {V} (m : Js.Map V) (k : string) :
  Js.Map_has m k = true <-> In k (List.map fst m).
Proof.
  unfold Js.Map_has. rewrite existsb_exists, in_map_iff. split.
  - intros [entry [Hin Heq]]. apply String.eqb_eq in Heq. eauto.
  - intros [entry [Heq Hin]]. exists entry. split; [exact Hin|].
    rewrite Heq. apply String.eqb_refl.
Qed.

Lemma Map_set_fresh {V} (m : Js.Map V) (k : string) (v : V) :
  Js.Map_has m k = false -> Js.Map_set m k v = m ++ [(k, v)].
Proof.
  induction m as [|[k' v'] m IH]; simpl; intros Hfresh; [reflexivity|].
  apply orb_false_elim in Hfresh. destruct Hfresh as [Hk Hm].
  rewrite Hk. now rewrite (IH Hm).
Qed.

(** ** Facts about [Promise.all] *)

Section PromiseFacts.
Context {A : Type} (values : list A).

(** The slots once the promises with an index in [settled] have fulfilled. *)
Let slotsAfter (settled : list nat) : list (option A) :=
  List.map
    (fun i => if existsb (Nat.eqb i) settled then nth_error values i else None)
    (seq 0 (List.length values)).

Lemma store_map_seq (f : nat -> option A) (v : A) (i start len : nat) :
  Js.store i v (List.map f (seq start len))
  = List.map (fun j => if Nat.eqb j (start + i) then Some v else f j)
      (seq start len).
Proof.
  revert i start. induction len as [|len IH]; intros i start; simpl.
  - now destruct i.
  - destruct i as [|i]; simpl.
    + rewrite Nat.add_0_r, Nat.eqb_refl. f_equal.
      apply map_ext_in. intros j Hj. apply in_seq in Hj.
      destruct (Nat.eqb_spec j start); [lia | reflexivity].
    + destruct (Nat.eqb_spec start (start + S i)); [lia|].
      f_equal. rewrite IH. apply map_ext. intros j.
      now replace (S start + i) with (start + S i) by lia.
Qed.

Lemma settle_slotsAfter (settled : list nat) (i : nat) :
  Js.settle values (slotsAfter settled) i = slotsAfter (i :: settled).
Proof.
  unfold Js.settle, slotsAfter.
  destruct (nth_error values i) as [v|] eqn:Hi.
  - rewrite store_map_seq. apply map_ext. intros j. simpl.
    destruct (Nat.eqb_spec j i) as [->|Hne]; [now rewrite Hi | reflexivity].
  - apply map_ext_in. intros j Hj. apply in_seq in Hj. simpl.
    destruct (Nat.eqb_spec j i) as [->|Hne]; [|reflexivity].
    apply nth_error_None in Hi. lia.
Qed.

Lemma fold_settle (order settled : list nat) :
  fold_left (Js.settle values) order (slotsAfter settled)
  = slotsAfter (rev order ++ settled).
Proof.
  revert settled. induction order as [|i order IH]; intros settled; simpl.
  - reflexivity.
  - rewrite settle_slotsAfter, IH. now rewrite <- app_assoc.
Qed.

Lemma collect_all (l : list A) : Js.collect (List.map Some l) = Some l.
Proof. induction l as [|x l IH]; simpl; [reflexivity | now rewrite IH]. Qed.

Lemma map_nth_error_seq (pre l : list A) :
  List.map (nth_error (pre ++ l)) (seq (List.length pre) (List.length l))
  = List.map Some l.
Proof.
  revert pre. induction l as [|x l IH]; intros pre; simpl; [reflexivity|].
  rewrite (nth_error_app2 pre (x :: l)) by lia. rewrite Nat.sub_diag.
  simpl. f_equal.
  specialize (IH (pre ++ [x])).
  rewrite <- app_assoc, length_app, Nat.add_1_r in IH. exact IH.
Qed.

Lemma repeat_map_seq {B} (b : B) (len start : nat) :
  repeat b len = List.map (fun _ => b) (seq start len).
Proof.
  revert start. induction len as [|len IH]; intros start; simpl;
    [reflexivity | f_equal; apply IH].
Qed.

(** Once every promise has settled, in whatever order, [Promise.all] fulfils
    with the values in the order of the promises. *)
Lemma Promise_all_settled (order : list nat) :
  incl (seq 0 (List.length values)) order ->
  Js.Promise_all values order = Some values.
Proof.
  intros Hall. unfold Js.Promise_all.
  assert (Hinit : repeat None (List.length values) = slotsAfter []).
  { unfold slotsAfter. simpl. apply repeat_map_seq. }
  rewrite Hinit, fold_settle, app_nil_r. unfold slotsAfter.
  rewrite <- collect_all. f_equal.
  rewrite <- (map_nth_error_seq [] values). simpl.
  apply map_ext_in. intros j Hj.
  assert (Hex : existsb (Nat.eqb j) (rev order) = true).
  { apply existsb_exists. exists j. split; [|apply Nat.eqb_refl].
    apply in_rev. rewrite rev_involutive. now apply Hall. }
  now rewrite Hex.
Qed.

End PromiseFacts.

(** ** Facts about the route *)

Lemma map_throwing_In {A B} (f : A -> completion B) (xs : list A) (ys : list B)
    (y : B) :
  map_throwing f xs = Normal ys -> In y ys ->
  exists x, In x xs /\ f x = Normal y.
Proof.
  revert ys. induction xs as [|x xs IH]; simpl; intros ys Hmap Hin.
  - injection Hmap as <-. destruct Hin.
  - destruct (f x) as [y0|] eqn:Hfx; simpl in Hmap; [|discriminate].
    destruct (map_throwing f xs) as [ys0|]; simpl in Hmap; [|discriminate].
    injection Hmap as <-. destruct Hin as [<-|Hin].
    + exists x. auto.
    + destruct (IH ys0 eq_refl Hin) as [x' [Hx' Hfx']]. exists x'. auto.
Qed.

Lemma map_throwing_Throw {A B} (f : A -> completion B) (xs : list A) (x : A)
    (e : JsError) :
  In x xs -> f x = Throw e -> exists e', map_throwing f xs = Throw e'.
Proof.
  induction xs as [|x0 xs IH]; simpl; intros Hin Hfx; [destruct Hin|].
  destruct Hin as [->|Hin].
  - rewrite Hfx. simpl. eauto.
  - destruct (f x0); simpl; [|eauto].
    destruct (IH Hin Hfx) as [e' ->]. simpl. eauto.
Qed.

Lemma keepEvents_In (xs : list (option WorldEvent.t)) (e : WorldEvent.t) :
  In e (keepEvents xs) <-> In (Some e) xs.
Proof.
  induction xs as [|[x|] xs IH]; simpl; [tauto| |].
  - rewrite IH. split; intros [H|H]; auto; left; congruence.
  - rewrite IH. split; [auto | intros [H|H]; [discriminate | exact H]].
Qed.

(** What a successful normalization puts in the event. *)
Lemma normalizeEvent_fields {E : Engine} (source : EventSource.t) (item : Item.t)
    (e : WorldEvent.t) :
  normalizeEvent source item = Normal (Some e) ->
  WorldEvent.url e = Js.nullish (Item.link item) ""
  /\ WorldEvent.id e = eventId source (WorldEvent.url e)
  /\ WorldEvent.sourceId e = EventSource.id source
  /\ WorldEvent.regions e = EventSource.regions source
  /\ WorldEvent.image e = resolveImage item.
Proof.
  unfold normalizeEvent, bind.
  destruct (match Item.isoDate item with
            | Some iso => Normal (Some iso)
            | None => _
            end) as [[publishedAt|]|]; try discriminate;
    destruct (option_map Js.trim (Item.title item)) as [title|];
    try discriminate.
  destruct (negb (Js.truthy title) || negb (Js.truthy _)
            || negb (Js.truthy publishedAt)); [discriminate|].
  intros H. injection H as <-. simpl. auto.
Qed.

Lemma fetchSource_In {E : Engine} (parseURL : string -> completion Feed.t)
    (source : EventSource.t) (e : WorldEvent.t) :
  In e (fetchSource parseURL source) ->
  exists item, normalizeEvent source item = Normal (Some e).
Proof.
  unfold fetchSource, fetchAndNormalize, try_catch, bind.
  destruct (parseURL (EventSource.feed source)) as [feed|]; [|intros []].
  destruct (map_throwing _ _) as [normalized|] eqn:Hmap; [|intros []].
  intros Hin. apply keepEvents_In in Hin.
  destruct (map_throwing_In _ _ _ _ Hmap Hin) as [item [_ Hitem]]. eauto.
Qed.

Lemma flattened_In {E : Engine} (parseURL : string -> completion Feed.t)
    (sources : list EventSource.t) (e : WorldEvent.t) :
  In e (List.concat (List.map (fetchSource parseURL) sources)) ->
  exists source item,
    In source sources /\ normalizeEvent source item = Normal (Some e).
Proof.
  intros Hin. apply in_concat in Hin. destruct Hin as [events [Hev Hin]].
  apply in_map_iff in Hev. destruct Hev as [source [<- Hsource]].
  destruct (fetchSource_In _ _ _ Hin) as [item Hitem]. eauto.
Qed.

(** The map [unique] while the loop runs over [l], started from [m]. *)
Lemma addUnlessSeen_first (l : list WorldEvent.t) (m : Js.Map WorldEvent.t)
    (k : string) (e : WorldEvent.t) :
  In (k, e) (fold_left addUnlessSeen l m) ->
  In (k, e) m
  \/ (Js.Map_has m k = false
      /\ List.find (fun x => String.eqb (WorldEvent.url x) k) l = Some e).
Proof.
  revert m. induction l as [|x l IH]; simpl; intros m Hin; [auto|].
  apply IH in Hin. unfold addUnlessSeen in Hin.
  destruct (Js.Map_has m (WorldEvent.url x)) eqn:Hseen.
  - destruct Hin as [Hin|[Hfresh Hfind]]; [auto|]. right. split; [exact Hfresh|].
    destruct (String.eqb_spec (WorldEvent.url x) k) as [Heq|_]; [|exact Hfind].
    congruence.
  - rewrite (Map_set_fresh _ _ _ Hseen) in Hin.
    destruct Hin as [Hin|[Hfresh Hfind]].
    + apply in_app_or in Hin. destruct Hin as [Hin|[Heq|[]]]; [auto|].
      injection Heq as <- <-. right. split; [exact Hseen|].
      now rewrite String.eqb_refl.
    + rewrite Map_has_app in Hfresh. apply orb_false_elim in Hfresh.
      destruct Hfresh as [Hfresh Hx]. simpl in Hx. rewrite orb_false_r in Hx.
      right. split; [exact Hfresh|]. now rewrite Hx.
Qed.

Lemma addUnlessSeen_keys (l : list WorldEvent.t) (m : Js.Map WorldEvent.t) :
  NoDup (List.map fst m) -> NoDup (List.map fst (fold_left addUnlessSeen l m)).
Proof.
  revert m. induction l as [|x l IH]; simpl; intros m Hnd; [exact Hnd|].
  apply IH. unfold addUnlessSeen.
  destruct (Js.Map_has m (WorldEvent.url x)) eqn:Hseen; [exact Hnd|].
  rewrite (Map_set_fresh _ _ _ Hseen), map_app. simpl.
  apply NoDup_app; [exact Hnd | repeat constructor; intros [] |].
  intros k Hk [<-|[]]. apply Map_has_keys in Hk. congruence.
Qed.

Lemma dedupe_first (l : list WorldEvent.t) (e : WorldEvent.t) :
  In e (Js.Map_values (dedupe l)) ->
  List.find (fun x => String.eqb (WorldEvent.url x) (WorldEvent.url e)) l = Some e.
Proof.
  unfold Js.Map_values, dedupe. intros Hin. apply in_map_iff in Hin.
  destruct Hin as [[k e'] [Heq Hin]]. simpl in Heq. subst e'.
  apply addUnlessSeen_first in Hin. destruct Hin as [[]|[_ Hfind]].
  pose proof (find_some _ _ Hfind) as [_ Hk]. apply String.eqb_eq in Hk.
  now rewrite Hk.
Qed.

Lemma dedupe_NoDup (l : list WorldEvent.t) :
  NoDup (List.map WorldEvent.url (Js.Map_values (dedupe l))).
Proof.
  assert (Hkeys : List.map WorldEvent.url (Js.Map_values (dedupe l))
                  = List.map fst (dedupe l)).
  { unfold Js.Map_values. rewrite map_map. apply map_ext_in.
    intros [k e] Hin. simpl. unfold dedupe in Hin.
    apply addUnlessSeen_first in Hin. destruct Hin as [[]|[_ Hfind]].
    pose proof (find_some _ _ Hfind) as [_ Hk]. now apply String.eqb_eq in Hk. }
  rewrite Hkeys. apply addUnlessSeen_keys. constructor.
Qed.

Lemma dedupe_incl (l : list WorldEvent.t) (e : WorldEvent.t) :
  In e (Js.Map_values (dedupe l)) -> In e l.
Proof.
  intros Hin. apply dedupe_first in Hin. now apply find_some in Hin.
Qed.

Lemma filterByQuery_incl {E : Engine} (query : option string)
    (events : list WorldEvent.t) (e : WorldEvent.t) :
  In e (filterByQuery query events) -> In e events.
Proof.
  unfold filterByQuery. destruct (Js.truthy_opt query); [|auto].
  intros Hin. now apply filter_In in Hin.
Qed.

Lemma unsorted_incl {E : Engine} (params : SearchParams.t)
    (results : list (list WorldEvent.t)) (e : WorldEvent.t) :
  In e (unsorted params results) -> In e (List.concat results).
Proof.
  intros Hin. apply filterByQuery_incl in Hin. now apply dedupe_incl.
Qed.

Lemma unsorted_NoDup {E : Engine} (params : SearchParams.t)
    (results : list (list WorldEvent.t)) :
  NoDup (List.map WorldEvent.url (unsorted params results)).
Proof.
  unfold unsorted, filterByQuery. destruct (Js.truthy_opt _).
  - apply NoDup_map_filter, dedupe_NoDup.
  - apply dedupe_NoDup.
Qed.

(** The returned events are a prefix of the sorted ones. *)
Lemma events_prefix {E : Engine} (now : string) (params : SearchParams.t)
    (sources : list EventSource.t) (results : list (list WorldEvent.t)) :
  exists k,
    Response.events (respond now params sources results)
    = firstn k (Js.sort byRecency (unsorted params results)).
Proof. simpl. apply slice0_firstn. Qed.

Lemma events_incl {E : Engine} (now : string) (params : SearchParams.t)
    (sources : list EventSource.t) (results : list (list WorldEvent.t))
    (e : WorldEvent.t) :
  In e (Response.events (respond now params sources results)) ->
  In e (unsorted params results).
Proof.
  destruct (events_prefix now params sources results) as [k ->].
  intros Hin. apply In_firstn in Hin.
  now apply (Permutation_in _ (sort_perm byRecency _)) in Hin.
Qed.

Lemma addUnlessSeen_grows (l : list WorldEvent.t) (m : Js.Map WorldEvent.t)
    (k : string) :
  Js.Map_has m k = true -> Js.Map_has (fold_left addUnlessSeen l m) k = true.
Proof.
  revert m. induction l as [|x l IH]; simpl; intros m Hk; [exact Hk|].
  apply IH. unfold addUnlessSeen.
  destruct (Js.Map_has m (WorldEvent.url x)) eqn:Hseen; [exact Hk|].
  rewrite (Map_set_fresh _ _ _ Hseen), Map_has_app, Hk. reflexivity.
Qed.

Lemma addUnlessSeen_covers (l : list WorldEvent.t) (m : Js.Map WorldEvent.t)
    (x : WorldEvent.t) :
  In x l -> Js.Map_has (fold_left addUnlessSeen l m) (WorldEvent.url x) = true.
Proof.
  revert m. induction l as [|y l IH]; simpl; intros m Hin; [destruct Hin|].
  destruct Hin as [->|Hin]; [|now apply IH].
  apply addUnlessSeen_grows. unfold addUnlessSeen.
  destruct (Js.Map_has m (WorldEvent.url x)) eqn:Hseen; [exact Hseen|].
  rewrite (Map_set_fresh _ _ _ Hseen), Map_has_app. simpl.
  rewrite String.eqb_refl. now rewrite orb_true_r.
Qed.


Lemma limitOf_floor (params : SearchParams.t) :
  exists L, limitOf params = Js.Num L /\ (10 <= L)%Z.
Proof.
  unfold limitOf. destruct (Js.parseInt _) as [|v|negative]; simpl.
  - exists 60%Z. split; [reflexivity | lia].
  - exists (Z.max v 10). split; [reflexivity | lia].
  - exists 60%Z. split; [reflexivity | lia].
Qed.

Lemma normalizeEvent_invalid_pubDate {E : Engine} (source : EventSource.t)
    (item : Item.t) (d : string) :
  Item.isoDate item = None -> Item.pubDate item = Some d ->
  Js.truthy d = true -> Date_parse d = None ->
  normalizeEvent source item = Throw (RangeError "Invalid time value").
Proof.
  intros Hiso Hpub Hd Hparse. unfold normalizeEvent, Date_toISOString.
  now rewrite Hiso, Hpub, Hd, Hparse.
Qed.

(** One item with an invalid publication date empties the list of its
    whole source. *)
Lemma fetchSource_invalid_pubDate {E : Engine}
    (parseURL : string -> completion Feed.t) (source : EventSource.t)
    (items : list Item.t) (item : Item.t) (d : string) :
  parseURL (EventSource.feed source) = Normal {| Feed.items := Some items |} ->
  In item items ->
  Item.isoDate item = None -> Item.pubDate item = Some d ->
  Js.truthy d = true -> Date_parse d = None ->
  fetchSource parseURL source = [].
Proof.
  intros Hfeed Hin Hiso Hpub Hd Hparse.
  unfold fetchSource, fetchAndNormalize. rewrite Hfeed. simpl.
  destruct (map_throwing_Throw (normalizeEvent source) items item _ Hin
              (normalizeEvent_invalid_pubDate source item d Hiso Hpub Hd Hparse))
    as [e' ->].
  reflexivity.
Qed.

(** ** The claims *)

(** C1 (the code departs from the claim).  An item without ISO date whose
    publication date is no date is not rejected on its own: its
    normalization throws a RangeError, the [catch] of its source swallows it
    and the source contributes nothing, so the valid item "EU Summit" of the
    same feed is lost with it. *)
Theorem invalid_pubDate_discards_whole_feed :
  Item.isoDate Sample.undated = None
  /\ Item.pubDate Sample.undated = Some "TBA"
  /\ Date_parse (Engine := Sample.engine) "TBA" = None
  /\ normalizeEvent (E := Sample.engine) Sample.S1 Sample.undated
     = Throw (RangeError "Invalid time value")
  /\ (exists e, normalizeEvent (E := Sample.engine) Sample.S1 Sample.euSummit
                = Normal (Some e))
  /\ Sample.netUndated (EventSource.feed Sample.S1)
     = Normal {| Feed.items := Some [Sample.euSummit; Sample.undated] |}
  /\ fetchSource (E := Sample.engine) Sample.netUndated Sample.S1 = []
  /\ Sample.titles (GET (E := Sample.engine) Sample.registry Sample.netUndated
                      "now" Sample.noParams)
     = ["Asia Trade Talks"].
Proof.
  repeat split; try (vm_compute; reflexivity).
  eexists. vm_compute. reflexivity.
Qed.

(** C2.  A source whose fetch, parse or normalization throws contributes
    the empty list and still appears in [sources] with its id, name and
    homepage, the ids of [sources] being those of the selected sources in
    registry order; the events of the response are those the route returns
    when the failing sources are taken out of the registry. *)
Theorem failing_source_is_isolated {E : Engine} (registry : list EventSource.t)
    (parseURL : string -> completion Feed.t) (now : string)
    (params : SearchParams.t) (source : EventSource.t) :
  In source (selectSources registry params) ->
  fails parseURL source = true ->
  let response := GET registry parseURL now params in
  fetchSource parseURL source = []
  /\ In {| SourceRef.id := EventSource.id source;
           SourceRef.name := EventSource.name source;
           SourceRef.homepage := EventSource.homepage source |}
        (Response.sources response)
  /\ List.map SourceRef.id (Response.sources response)
     = List.map EventSource.id (selectSources registry params)
  /\ Response.events response
     = Response.events
         (GET (List.filter (fun s => negb (fails parseURL s)) registry)
            parseURL now params).
Proof.
  intros Hsel Hfails response.
  assert (Hnil : forall s, negb (fails parseURL s) = false ->
                           fetchSource parseURL s = []).
  { intros s Hs. apply negb_false_iff in Hs. unfold fails in Hs.
    unfold fetchSource. now destruct (fetchAndNormalize parseURL s). }
  split; [apply Hnil; now rewrite Hfails|].
  split; [exact (in_map sourceRef _ _ Hsel)|].
  split; [simpl; rewrite map_map; reflexivity|].
  subst response.
  assert (Hcomm : selectSources
                    (List.filter (fun s => negb (fails parseURL s)) registry)
                    params
                  = List.filter (fun s => negb (fails parseURL s))
                      (selectSources registry params)).
  { unfold selectSources. destruct (String.eqb _ _); [reflexivity|].
    apply filter_swap. }
  unfold GET. rewrite Hcomm. unfold respond, unsorted. simpl.
  rewrite concat_map_filter_nil by auto. reflexivity.
Qed.

Lemma failing_source_is_isolated_witness :
  fetchSource (E := Sample.engine) Sample.netDown Sample.S1 = []
  /\ In {| SourceRef.id := "s1";
           SourceRef.name := "Source s1";
           SourceRef.homepage := "https://s1.example" |}
       (Response.sources
          (GET (E := Sample.engine) Sample.registry Sample.netDown "now"
             Sample.noParams))
  /\ List.map SourceRef.id
       (Response.sources
          (GET (E := Sample.engine) Sample.registry Sample.netDown "now"
             Sample.noParams))
     = ["s1"; "s2"]
  /\ Sample.titles (GET (E := Sample.engine) Sample.registry Sample.netDown
                      "now" Sample.noParams)
     = ["Asia Trade Talks"].
Proof.
  destruct (failing_source_is_isolated (E := Sample.engine) Sample.registry
              Sample.netDown "now" Sample.noParams Sample.S1)
    as [Hnil [Hsrc [Hids Hev]]].
  - vm_compute. left. reflexivity.
  - reflexivity.
  - split; [exact Hnil|]. split; [exact Hsrc|]. split; [exact Hids|].
    unfold Sample.titles. rewrite Hev. reflexivity.
Defined.

(** C3.  The addresses of the returned events are pairwise distinct; a
    returned event is the first event with its address in the flattened
    sequence (registry order, then feed order); and the map [unique] holds
    an entry for every address of the flattened sequence. *)
Theorem url_unique_first_seen_wins {E : Engine} (registry : list EventSource.t)
    (parseURL : string -> completion Feed.t) (now : string)
    (params : SearchParams.t) :
  let flattened :=
    List.concat (List.map (fetchSource parseURL) (selectSources registry params)) in
  let events := Response.events (GET registry parseURL now params) in
  NoDup (List.map WorldEvent.url events)
  /\ (forall e, In e events ->
        List.find (fun x => String.eqb (WorldEvent.url x) (WorldEvent.url e))
          flattened = Some e)
  /\ (forall x, In x flattened ->
        Js.Map_has (dedupe flattened) (WorldEvent.url x) = true).
Proof.
  intros flattened events. split; [|split].
  - subst events. unfold GET.
    destruct (events_prefix now params (selectSources registry params)
                (List.map (fetchSource parseURL) (selectSources registry params)))
      as [k ->].
    apply NoDup_map_firstn.
    apply (Permutation_NoDup
             (Permutation_map _ (Permutation_sym (sort_perm byRecency _)))).
    apply unsorted_NoDup.
  - intros e Hin. apply events_incl in Hin.
    apply filterByQuery_incl in Hin. now apply dedupe_first.
  - intros x Hin. now apply addUnlessSeen_covers.
Qed.

Lemma url_unique_first_seen_wins_witness :
  let events :=
    Response.events
      (GET (E := Sample.engine) Sample.registry Sample.netShared "now"
         Sample.noParams) in
  NoDup (List.map WorldEvent.url events)
  /\ List.map WorldEvent.sourceId
       (List.filter (fun e => String.eqb (WorldEvent.url e) "https://wire/1")
          events)
     = ["s1"].
Proof.
  destruct (url_unique_first_seen_wins (E := Sample.engine) Sample.registry
              Sample.netShared "now" Sample.noParams) as [Hnd _].
  split; [exact Hnd | vm_compute; reflexivity].
Defined.

Lemma byRecency_rank {E : Engine} (x y : WorldEvent.t) :
  parseable x -> parseable y ->
  Js.before_or_equal byRecency x y
  = (match getTime x with Some t => - t | None => 0 end
     <=? match getTime y with Some t => - t | None => 0 end)%Z.
Proof.
  unfold parseable, Js.before_or_equal, byRecency, Js.sub.
  destruct (getTime x) as [tx|], (getTime y) as [ty|]; try congruence.
  intros _ _.
  destruct (Z.leb_spec (ty - tx) 0), (Z.leb_spec (- tx) (- ty)); auto; lia.
Qed.




(** C5.  The limit is 60 when the parameter is absent or [parseInt] finds no
    number in it, and 10 when it finds a number below 10; it is always a
    number that is at least 10, and the response never holds more events
    than the limit. *)
Theorem limit_default_floor_and_cap {E : Engine} (registry : list EventSource.t)
    (parseURL : string -> completion Feed.t) (now : string)
    (params : SearchParams.t) :
  (SearchParams.limit params = None -> limitOf params = Js.Num 60)
  /\ (forall s, SearchParams.limit params = Some s -> Js.parseInt s = Js.NaN ->
        limitOf params = Js.Num 60)
  /\ (forall s v, SearchParams.limit params = Some s ->
        Js.parseInt s = Js.Num v -> (v < 10)%Z -> limitOf params = Js.Num 10)
  /\ (exists L, limitOf params = Js.Num L /\ (10 <= L)%Z
        /\ (Z.of_nat (List.length (Response.events
                                     (GET registry parseURL now params))) <= L)%Z).
Proof.
  repeat split.
  - intros Hnone. unfold limitOf. now rewrite Hnone.
  - intros s Hs Hnan. unfold limitOf. now rewrite Hs; simpl; rewrite Hnan.
  - intros s v Hs Hnum Hv. unfold limitOf. rewrite Hs. simpl. rewrite Hnum.
    simpl. f_equal. lia.
  - destruct (limitOf_floor params) as [L [HL Hfloor]].
    exists L. split; [exact HL|]. split; [exact Hfloor|].
    unfold GET, respond. simpl. rewrite HL. apply slice0_length. lia.
Qed.

Lemma limit_default_floor_and_cap_witness :
  limitOf (Sample.params None None None) = Js.Num 60
  /\ limitOf (Sample.params None None (Some "many")) = Js.Num 60
  /\ limitOf (Sample.params None None (Some "5")) = Js.Num 10
  /\ limitOf (Sample.params None None (Some "0")) = Js.Num 10
  /\ List.length
       (Response.events
          (GET (E := Sample.engine) Sample.registry Sample.netTwelve "now"
             (Sample.params None None (Some "5")))) = 10.
Proof.
  pose proof (limit_default_floor_and_cap (E := Sample.engine) Sample.registry
                Sample.netTwelve "now") as H.
  destruct (H (Sample.params None None None)) as [Habsent _].
  destruct (H (Sample.params None None (Some "many"))) as [_ [Hnan _]].
  destruct (H (Sample.params None None (Some "5"))) as [_ [_ [Hfive _]]].
  destruct (H (Sample.params None None (Some "0"))) as [_ [_ [Hzero _]]].
  split; [apply Habsent; reflexivity|].
  split; [apply (Hnan "many"); reflexivity|].
  split; [apply (Hfive "5" 5%Z); [reflexivity | reflexivity | lia]|].
  split; [apply (Hzero "0" 0%Z); [reflexivity | reflexivity | lia]|].
  vm_compute. reflexivity.
Defined.

Lemma truthy_nonempty (s : string) : s <> "" -> Js.truthy s = true.
Proof. destruct s; [congruence | reflexivity]. Qed.

Lemma regionOf_named {E : Engine} (params : SearchParams.t) (r : string) :
  SearchParams.region params = Some r ->
  toLowerCase r <> "" -> toLowerCase r <> "global" ->
  regionOf params = toLowerCase r.
Proof.
  intros Hr Hne Hng. unfold regionOf. rewrite Hr. simpl.
  rewrite (truthy_nonempty _ Hne).
  destruct (String.eqb_spec (toLowerCase r) "global"); [contradiction|].
  reflexivity.
Qed.

Lemma selectSources_named {E : Engine} (registry : list EventSource.t)
    (params : SearchParams.t) (r : string) :
  SearchParams.region params = Some r ->
  toLowerCase r <> "" -> toLowerCase r <> "global" ->
  selectSources registry params
  = List.filter
      (fun s => Js.array_includes (EventSource.regions s) (toLowerCase r))
      registry.
Proof.
  intros Hr Hne Hng. unfold selectSources.
  rewrite (regionOf_named params r Hr Hne Hng).
  destruct (String.eqb_spec (toLowerCase r) "global"); [contradiction|].
  reflexivity.
Qed.

Lemma filter_none {A} (p : A -> bool) (l : list A) :
  (forall x, In x l -> p x = false) -> List.filter p l = [].
Proof.
  induction l as [|x l IH]; simpl; intros Hp; [reflexivity|].
  rewrite (Hp x) by auto. apply IH. auto.
Qed.

(** C6 (counterexample to the claim as stated).  A source tagged "Europe"
    is not selected by the request [region=Europe], although its region set
    contains the requested region, literally and ignoring case: the route
    lower-cases the parameter and compares it with the tags as they are.
    And the request [region=], whose region is not "global" and is a tag of
    no source, selects every source. *)
Lemma capitalised_tag_is_never_selected :
  In "Europe" (EventSource.regions Sample.S3)
  /\ hasRegionIgnoringCase (E := Sample.engine) Sample.S3 "Europe" = true
  /\ "Europe" <> "global"
  /\ selectSources (E := Sample.engine) [Sample.S3]
       (Sample.params None (Some "Europe") None) = []
  /\ List.map (fun s => hasRegionIgnoringCase (E := Sample.engine) s "")
       Sample.registry = [false; false]
  /\ selectSources (E := Sample.engine) Sample.registry
       (Sample.params None (Some "") None) = Sample.registry.
Proof. repeat split; vm_compute; auto; discriminate. Qed.

(** C6 (amended).  When the region parameter is absent, or its lower-cased
    value is empty or "global", every source of the registry is selected;
    otherwise the selected sources are exactly those whose region list has
    the lower-cased value of the parameter as an element, and the region
    list of every returned event has it too. *)
Theorem region_selects_by_lowercased_parameter {E : Engine}
    (registry : list EventSource.t) (parseURL : string -> completion Feed.t)
    (now : string) (params : SearchParams.t) :
  (SearchParams.region params = None -> selectSources registry params = registry)
  /\ (forall r, SearchParams.region params = Some r ->
        toLowerCase r = "" \/ toLowerCase r = "global" ->
        selectSources registry params = registry)
  /\ (forall r, SearchParams.region params = Some r ->
        toLowerCase r <> "" -> toLowerCase r <> "global" ->
        selectSources registry params
        = List.filter
            (fun s => Js.array_includes (EventSource.regions s) (toLowerCase r))
            registry
        /\ (forall s, In s (selectSources registry params)
                      <-> In s registry
                          /\ In (toLowerCase r) (EventSource.regions s))
        /\ (forall e, In e (Response.events (GET registry parseURL now params)) ->
                      In (toLowerCase r) (WorldEvent.regions e))).
Proof.
  split; [|split].
  - intros Hnone. unfold selectSources, regionOf. now rewrite Hnone.
  - intros r Hr Hglobal. unfold selectSources, regionOf. rewrite Hr. simpl.
    destruct Hglobal as [-> | ->]; reflexivity.
  - intros r Hr Hne Hng.
    pose proof (selectSources_named registry params r Hr Hne Hng) as Hsel.
    assert (Hiff : forall s, In s (selectSources registry params)
                             <-> In s registry
                                 /\ In (toLowerCase r) (EventSource.regions s)).
    { intros s. rewrite Hsel, filter_In, array_includes_In. tauto. }
    split; [exact Hsel|]. split; [exact Hiff|].
    intros e Hin. unfold GET in Hin. apply events_incl, unsorted_incl in Hin.
    destruct (flattened_In _ _ _ Hin) as [s [item [Hs Hitem]]].
    apply normalizeEvent_fields in Hitem.
    destruct Hitem as [_ [_ [_ [Hregions _]]]]. rewrite Hregions.
    now apply Hiff.
Qed.

Lemma region_selects_by_lowercased_parameter_witness :
  selectSources (E := Sample.engine) Sample.registry
    (Sample.params None (Some "EUROPE") None) = [Sample.S1]
  /\ (forall e,
        In e (Response.events
                (GET (E := Sample.engine) Sample.registry Sample.net "now"
                   (Sample.params None (Some "EUROPE") None))) ->
        In "europe" (WorldEvent.regions e)).
Proof.
  destruct (region_selects_by_lowercased_parameter (E := Sample.engine)
              Sample.registry Sample.net "now"
              (Sample.params None (Some "EUROPE") None)) as [_ [_ Hnamed]].
  destruct (Hnamed "EUROPE") as [Hsel [_ Hev]].
  - reflexivity.
  - vm_compute. discriminate.
  - vm_compute. discriminate.
  - split; [rewrite Hsel; reflexivity | exact Hev].
Defined.

(** C7.  The events of the response depend neither on the order in which
    the fetches settle nor on the reading of the clock: whenever every
    fetch settles, the route responds, and two runs over the same registry,
    feeds and parameters return the same list of events, the one computed
    from the results taken in registry order. *)
Theorem events_independent_of_schedule_and_clock {E : Engine}
    (registry : list EventSource.t) (parseURL : string -> completion Feed.t)
    (params : SearchParams.t) (now1 now2 : string) (order1 order2 : list nat) :
  let n := List.length (selectSources registry params) in
  incl (seq 0 n) order1 -> incl (seq 0 n) order2 ->
  exists r1 r2,
    GET_scheduled registry parseURL now1 order1 params = Some r1
    /\ GET_scheduled registry parseURL now2 order2 params = Some r2
    /\ Response.events r1 = Response.events r2
    /\ Response.events r1 = Response.events (GET registry parseURL now1 params).
Proof.
  intros n H1 H2. unfold GET_scheduled.
  rewrite !Promise_all_settled by (rewrite length_map; assumption).
  simpl. eexists. eexists. repeat split.
Qed.

Lemma events_independent_of_schedule_and_clock_witness :
  exists r1 r2,
    GET_scheduled (E := Sample.engine) Sample.registry Sample.net
      "2024-01-04T00:00:00.000Z" [0; 1] Sample.noParams = Some r1
    /\ GET_scheduled (E := Sample.engine) Sample.registry Sample.net
         "2024-01-05T00:00:00.000Z" [1; 0; 1] Sample.noParams = Some r2
    /\ Response.events r1 = Response.events r2
    /\ Response.events r1
       = Response.events
           (GET (E := Sample.engine) Sample.registry Sample.net
              "2024-01-04T00:00:00.000Z" Sample.noParams).
Proof.
  apply (events_independent_of_schedule_and_clock (E := Sample.engine)
           Sample.registry Sample.net Sample.noParams);
    intros i Hi; vm_compute in Hi; vm_compute; tauto.
Defined.

(** C8.  The id of an event is computed from the id of its source and its
    address alone: normalizations under the same source id give equal ids
    for equal addresses and different ids for different addresses. *)
Theorem event_id_determined_by_source_and_url {E : Engine}
    (s1 s2 : EventSource.t) (i1 i2 : Item.t) (e1 e2 : WorldEvent.t) :
  normalizeEvent s1 i1 = Normal (Some e1) ->
  normalizeEvent s2 i2 = Normal (Some e2) ->
  EventSource.id s1 = EventSource.id s2 ->
  WorldEvent.id e1 = eventId s1 (WorldEvent.url e1)
  /\ (WorldEvent.url e1 = WorldEvent.url e2 -> WorldEvent.id e1 = WorldEvent.id e2)
  /\ (WorldEvent.url e1 <> WorldEvent.url e2 -> WorldEvent.id e1 <> WorldEvent.id e2).
Proof.
  intros H1 H2 Hid.
  apply normalizeEvent_fields in H1, H2.
  destruct H1 as [_ [Hid1 _]], H2 as [_ [Hid2 _]].
  split; [exact Hid1|]. rewrite Hid1, Hid2. unfold eventId. rewrite Hid.
  split.
  - intros ->. reflexivity.
  - intros Hneq Heq. apply Hneq.
    apply append_cancel_l in Heq. simpl in Heq. injection Heq as Heq.
    now apply base64url_inj.
Qed.

Lemma event_id_determined_by_source_and_url_witness :
  exists e1 e2,
    normalizeEvent (E := Sample.engine) Sample.S1 Sample.euSummit = Normal (Some e1)
    /\ normalizeEvent (E := Sample.engine) Sample.S1 Sample.wireS1 = Normal (Some e2)
    /\ WorldEvent.id e1 = "s1:aHR0cHM6Ly9hLzE"
    /\ WorldEvent.id e1 <> WorldEvent.id e2.
Proof.
  eexists. eexists.
  split; [vm_compute; reflexivity|]. split; [vm_compute; reflexivity|].
  split; [vm_compute; reflexivity|].
  refine (proj2 (proj2 (event_id_determined_by_source_and_url
                          (E := Sample.engine) Sample.S1 Sample.S1
                          Sample.euSummit Sample.wireS1 _ _ _ _ _)) _).
  - vm_compute. reflexivity.
  - vm_compute. reflexivity.
  - reflexivity.
  - vm_compute. discriminate.
Defined.

Lemma http_test (u : string) :
  Js.truthy u && Js.is_http_url u = Js.is_http_url u.
Proof.
  destruct (Js.is_http_url u) eqn:Hu; [|apply andb_false_r].
  now rewrite (is_http_url_truthy u Hu).
Qed.

(** C9 (counterexample to the claim as stated).  With no enclosure and a
    media list whose first entry with an address is not an HTTP(S) address,
    the image is left unset although a later entry has a matching address:
    the scan stops at the first entry that has a key "url". *)
Lemma media_scan_stops_at_first_url_entry :
  Item.enclosure Sample.withMedia = None
  /\ option_map firstMatchingMedia (Item.mediaContent Sample.withMedia)
     = Some (Some "https://media.example/2.png")
  /\ option_map WorldEvent.image
       (try_catch (normalizeEvent (E := Sample.engine) Sample.S1 Sample.withMedia)
          (fun _ => None))
     = Some None.
Proof. repeat split; vm_compute; reflexivity. Qed.

(** C9 (amended).  For an item that normalizes to an event: an enclosure
    address that matches the HTTP(S) pattern is the image; when the
    enclosure gives no matching address, the media value, if it is a list,
    is searched for its first entry that is an object with a key "url", and
    the address of that one entry is the image if it is defined and matches
    the pattern; otherwise the image is unset.  An image that is set matches
    the HTTP(S) pattern. *)
Theorem image_from_enclosure_else_first_url_entry {E : Engine}
    (source : EventSource.t) (item : Item.t) (e : WorldEvent.t) :
  normalizeEvent source item = Normal (Some e) ->
  (forall u, Item.enclosure item = Some (Some u) -> Js.is_http_url u = true ->
             WorldEvent.image e = Some u)
  /\ ((forall u, Item.enclosure item = Some (Some u) -> Js.is_http_url u = false) ->
      WorldEvent.image e
      = match Item.mediaContent item with
        | Some entries =>
            match List.find exposesUrl entries with
            | Some (ObjectWithUrl (Some u)) =>
                if Js.is_http_url u then Some u else None
            | _ => None
            end
        | None => None
        end)
  /\ (forall u, WorldEvent.image e = Some u -> Js.is_http_url u = true).
Proof.
  intros Hnorm. apply normalizeEvent_fields in Hnorm.
  destruct Hnorm as [_ [_ [_ [_ Himage]]]]. rewrite Himage.
  unfold resolveImage, enclosureImage, mediaImage.
  split; [|split].
  - intros u Henc Hu. rewrite Henc, http_test, Hu. reflexivity.
  - intros Hnone. destruct (Item.enclosure item) as [[u|]|].
    + rewrite http_test, (Hnone u eq_refl).
      destruct (Item.mediaContent item) as [entries|]; [|reflexivity].
      destruct (List.find exposesUrl entries) as [[| |[v|]]|]; try reflexivity.
      now rewrite http_test.
    + destruct (Item.mediaContent item) as [entries|]; [|reflexivity].
      destruct (List.find exposesUrl entries) as [[| |[v|]]|]; try reflexivity.
      now rewrite http_test.
    + destruct (Item.mediaContent item) as [entries|]; [|reflexivity].
      destruct (List.find exposesUrl entries) as [[| |[v|]]|]; try reflexivity.
      now rewrite http_test.
  - intros u.
    assert (Hmedia : match Item.mediaContent item with
                     | Some entries =>
                         match List.find exposesUrl entries with
                         | Some (ObjectWithUrl (Some v)) =>
                             if Js.truthy v && Js.is_http_url v
                             then Some v else None
                         | _ => None
                         end
                     | None => None
                     end = Some u -> Js.is_http_url u = true).
    { destruct (Item.mediaContent item) as [entries|]; [|discriminate].
      destruct (List.find exposesUrl entries) as [[| |[v|]]|]; try discriminate.
      rewrite http_test. destruct (Js.is_http_url v) eqn:Hv; [|discriminate].
      intros H. injection H as <-. exact Hv. }
    destruct (Item.enclosure item) as [[v|]|]; try exact Hmedia.
    rewrite http_test. destruct (Js.is_http_url v) eqn:Hv; [|exact Hmedia].
    intros H. injection H as <-. exact Hv.
Qed.

Lemma image_from_enclosure_else_first_url_entry_witness :
  exists e,
    normalizeEvent (E := Sample.engine) Sample.S1 Sample.withEnclosure
    = Normal (Some e)
    /\ WorldEvent.image e = Some "http://media.example/e.jpg"
    /\ Js.is_http_url "http://media.example/e.jpg" = true.
Proof.
  eexists. split; [vm_compute; reflexivity|].
  split; [|reflexivity].
  refine (proj1 (image_from_enclosure_else_first_url_entry
                   (E := Sample.engine) Sample.S1 Sample.withEnclosure _ _) _ _ _).
  - vm_compute. reflexivity.
  - reflexivity.
  - reflexivity.
Defined.

(** C10 (counterexample to the claim as stated).  The empty region value is
    neither "global" nor a tag of any source, and yet the request
    [region=] selects every source and returns events: an empty parameter
    counts as absent. *)
Lemma empty_region_selects_every_source :
  toLowerCase (Engine := Sample.engine) "" <> "global"
  /\ (forall s, In s Sample.registry ->
        ~ In (toLowerCase (Engine := Sample.engine) "") (EventSource.regions s))
  /\ List.map SourceRef.id
       (Response.sources
          (GET (E := Sample.engine) Sample.registry Sample.net "now"
             (Sample.params None (Some "") None)))
     = ["s1"; "s2"]
  /\ Sample.titles
       (GET (E := Sample.engine) Sample.registry Sample.net "now"
          (Sample.params None (Some "") None))
     = ["Asia Trade Talks"; "EU Summit"].
Proof.
  split; [vm_compute; discriminate|].
  split; [|split; vm_compute; reflexivity].
  intros s [<-|[<-|[]]]; vm_compute; intros [H|[]]; discriminate H.
Qed.

(** C10 (amended).  A region parameter whose lower-cased value is not
    empty, is not "global" and is a tag of no source of the registry gets a
    normal response with no events and no sources. *)
Theorem unknown_region_gives_empty_response {E : Engine}
    (registry : list EventSource.t) (parseURL : string -> completion Feed.t)
    (now : string) (params : SearchParams.t) (r : string) :
  SearchParams.region params = Some r ->
  toLowerCase r <> "" -> toLowerCase r <> "global" ->
  (forall s, In s registry -> ~ In (toLowerCase r) (EventSource.regions s)) ->
  Response.events (GET registry parseURL now params) = []
  /\ Response.sources (GET registry parseURL now params) = [].
Proof.
  intros Hr Hne Hng Hunknown.
  assert (Hsel : selectSources registry params = []).
  { rewrite (selectSources_named registry params r Hr Hne Hng).
    apply filter_none. intros s Hs.
    destruct (Js.array_includes (EventSource.regions s) (toLowerCase r)) eqn:Hin;
      [|reflexivity].
    apply array_includes_In in Hin. now destruct (Hunknown s Hs). }
  unfold GET. rewrite Hsel. split; [|reflexivity].
  destruct (events_prefix now params [] []) as [k Hk]. simpl List.map.
  rewrite Hk. unfold unsorted, filterByQuery. simpl.
  destruct (Js.truthy_opt (queryOf params)); simpl; now destruct k.
Qed.

Lemma unknown_region_gives_empty_response_witness :
  Response.events
    (GET (E := Sample.engine) Sample.registry Sample.net "now"
       (Sample.params None (Some "Antarctica") None)) = []
  /\ Response.sources
       (GET (E := Sample.engine) Sample.registry Sample.net "now"
          (Sample.params None (Some "Antarctica") None)) = [].
Proof.
  apply (unknown_region_gives_empty_response (E := Sample.engine)
           Sample.registry Sample.net "now"
           (Sample.params None (Some "Antarctica") None) "Antarctica").
  - reflexivity.
  - vm_compute. discriminate.
  - vm_compute. discriminate.
  - intros s [<-|[<-|[]]]; vm_compute; intros [H|[]]; discriminate H.
Defined.

(** * Further properties of the route and of the page *)

(** ** White space *)

Lemma trimStart_fuel_enough (n m : nat) (s : string) :
  String.length s <= n -> String.length s <= m ->
  Js.trimStart_fuel n s = Js.trimStart_fuel m s.
Proof.
  revert m s. induction n as [|n IH]; intros m s Hn Hm.
  - destruct s; [now destruct m | simpl in Hn; lia].
  - destruct m as [|m]; [destruct s; [reflexivity | simpl in Hm; lia]|].
    simpl. destruct (Js.strip_space s) as [rest|] eqn:Hs; [|reflexivity].
    apply strip_space_shorter in Hs. apply IH; lia.
Qed.

Lemma trimStart_eq (s : string) :
  Js.trimStart s
  = match Js.strip_space s with
    | Some rest => Js.trimStart rest
    | None => s
    end.
Proof.
  unfold Js.trimStart. destruct s as [|c s']; [reflexivity|].
  simpl String.length. cbn [Js.trimStart_fuel].
  destruct (Js.strip_space (String c s')) as [rest|] eqn:Hs; [|reflexivity].
  apply strip_space_shorter in Hs. simpl in Hs.
  apply trimStart_fuel_enough; lia.
Qed.

Lemma collapse_spaces_eq (s : string) :
  Js.collapse_spaces s
  = match Js.strip_space s with
    | Some rest => String " " (Js.collapse_spaces (Js.trimStart rest))
    | None =>
        match s with
        | EmptyString => EmptyString
        | String c s' => String c (Js.collapse_spaces s')
        end
    end.
Proof.
  unfold Js.collapse_spaces. destruct s as [|c s']; [reflexivity|].
  simpl String.length. cbn [Js.collapse_spaces_fuel].
  destruct (Js.strip_space (String c s')) as [rest|] eqn:Hs.
  - f_equal. apply strip_space_shorter in Hs. simpl in Hs.
    pose proof (trimStart_fuel_length (String.length rest) rest).
    fold (Js.trimStart rest) in *.
    apply collapse_spaces_fuel_enough; lia.
  - reflexivity.
Qed.

Lemma all_space_eq (s : string) :
  Js.all_space s
  = match Js.strip_space s with
    | Some rest => Js.all_space rest
    | None => negb (Js.truthy s)
    end.
Proof.
  unfold Js.all_space. rewrite trimStart_eq.
  now destruct (Js.strip_space s).
Qed.

Lemma strip_space_app (s rest w : string) :
  Js.strip_space s = Some rest -> Js.strip_space (s ++ w)%string = Some (rest ++ w)%string.
Proof.
  unfold Js.strip_space.
  destruct s as [|c [|d [|e s3]]]; simpl;
    repeat match goal with
           | |- context [if ?b then _ else _] => destruct b
           end;
    intros H; try discriminate H; injection H as <-; try reflexivity.
  all: destruct w as [|x [|y w]]; try reflexivity.
Qed.

Lemma strip_space_app_None (s w : string) :
  Js.strip_space (s ++ w)%string = None -> Js.strip_space s = None.
Proof.
  intros H. destruct (Js.strip_space s) as [rest|] eqn:Hs; [|reflexivity].
  rewrite (strip_space_app s rest w Hs) in H. discriminate H.
Qed.

Lemma all_space_app (a b : string) :
  Js.all_space a = true -> Js.all_space b = true -> Js.all_space (a ++ b)%string = true.
Proof.
  remember (String.length a) as n eqn:Hn. revert a Hn.
  induction n as [n IH] using lt_wf_ind. intros a Hn Ha Hb.
  rewrite all_space_eq in Ha.
  destruct (Js.strip_space a) as [rest|] eqn:Hs.
  - rewrite all_space_eq, (strip_space_app a rest b Hs).
    apply (IH (String.length rest)); auto.
    apply strip_space_shorter in Hs. lia.
  - destruct a; [exact Hb | discriminate Ha].
Qed.

Lemma trimEnd_split (s : string) :
  exists w, s = (Js.trimEnd s ++ w)%string /\ Js.all_space w = true.
Proof.
  induction s as [|c s IH].
  - exists "". split; reflexivity.
  - cbn [Js.trimEnd]. destruct (Js.all_space (String c s)) eqn:Hall.
    + exists (String c s). split; [reflexivity | exact Hall].
    + destruct IH as [w [Hw Hall']]. exists w. split; [|exact Hall'].
      simpl. now rewrite <- Hw.
Qed.

Lemma all_space_trimEnd (s : string) :
  Js.all_space (Js.trimEnd s) = true -> Js.all_space s = true.
Proof.
  intros H. destruct (trimEnd_split s) as [w [Hw Hall]].
  rewrite Hw. now apply all_space_app.
Qed.

Lemma all_space_cons_trimEnd (c : ascii) (s : string) :
  Js.all_space (String c (Js.trimEnd s)) = true -> Js.all_space (String c s) = true.
Proof.
  intros H. destruct (trimEnd_split s) as [w [Hw Hall]].
  rewrite Hw. change (String c (Js.trimEnd s ++ w)%string)
    with (String c (Js.trimEnd s) ++ w)%string.
  now apply all_space_app.
Qed.

Lemma trimEnd_idem (s : string) : Js.trimEnd (Js.trimEnd s) = Js.trimEnd s.
Proof.
  induction s as [|c s IH]; [reflexivity|].
  cbn [Js.trimEnd]. destruct (Js.all_space (String c s)) eqn:Hall; [reflexivity|].
  cbn [Js.trimEnd].
  destruct (Js.all_space (String c (Js.trimEnd s))) eqn:Hall'.
  - apply all_space_cons_trimEnd in Hall'. congruence.
  - now rewrite IH.
Qed.

Lemma strip_space_trimEnd (s : string) :
  Js.strip_space s = None -> Js.strip_space (Js.trimEnd s) = None.
Proof.
  intros H. destruct (trimEnd_split s) as [w [Hw _]].
  rewrite Hw in H. now apply strip_space_app_None in H.
Qed.

Lemma trimStart_fixed (s : string) : Js.strip_space s = None -> Js.trimStart s = s.
Proof. intros H. now rewrite trimStart_eq, H. Qed.

Lemma strip_space_trim (s : string) : Js.strip_space (Js.trim s) = None.
Proof. apply strip_space_trimEnd, trimStart_done. Qed.

Lemma trim_idem (s : string) : Js.trim (Js.trim s) = Js.trim s.
Proof.
  unfold Js.trim at 1. rewrite (trimStart_fixed _ (strip_space_trim s)).
  apply trimEnd_idem.
Qed.

Lemma trim_empty_iff (s : string) : Js.trim s = "" <-> Js.all_space s = true.
Proof.
  unfold Js.trim, Js.all_space.
  pose proof (trimStart_done s) as Hdone.
  destruct (Js.trimStart s) as [|c u] eqn:Hu; [simpl; tauto|].
  cbn [Js.trimEnd]. rewrite all_space_eq, Hdone. simpl. split; discriminate.
Qed.

(** No non-empty suffix of a trimmed string is white space. *)
Lemma trimEnd_suffix (s pre t : string) :
  Js.trimEnd s = (pre ++ t)%string -> t <> "" -> Js.all_space t = false.
Proof.
  revert pre. induction s as [|c s IH]; intros pre Heq Ht.
  - destruct pre, t; try discriminate Heq. congruence.
  - cbn [Js.trimEnd] in Heq. destruct (Js.all_space (String c s)) eqn:Hall.
    + destruct pre, t; try discriminate Heq. congruence.
    + destruct pre as [|p pre].
      * simpl in Heq. subst t.
        destruct (Js.all_space (String c (Js.trimEnd s))) eqn:H; [|reflexivity].
        apply all_space_cons_trimEnd in H. congruence.
      * simpl in Heq. injection Heq as _ Heq. now apply (IH pre).
Qed.

(** Facts on the bytes: a space is no second or third byte of a code point. *)
Lemma strip_space_then_space (c : ascii) (s1 z : string) :
  Js.strip_space (String c s1) = None ->
  Js.strip_space (String c (String " " z)) = None.
Proof.
  unfold Js.strip_space.
  destruct ((9 <=? Js.byte c) && (Js.byte c <=? 13) || (Js.byte c =? 32))%N;
    [destruct s1 as [|d [|e s3]]; intros H; try discriminate H;
       repeat match type of H with
              | context [if ?b then _ else _] => destruct b
              end; discriminate H|].
  intros _. change (Js.byte " ") with 32%N. simpl.
  rewrite !andb_false_r. simpl.
  destruct z; reflexivity.
Qed.

Lemma strip_space_then_byte_space (c d : ascii) (s2 z : string) :
  Js.strip_space (String c (String d s2)) = None ->
  Js.strip_space (String c (String d (String " " z))) = None.
Proof.
  unfold Js.strip_space.
  destruct ((9 <=? Js.byte c) && (Js.byte c <=? 13) || (Js.byte c =? 32))%N;
    [intros H; discriminate H|].
  destruct ((Js.byte c =? 194) && (Js.byte d =? 160))%N;
    [intros H; discriminate H|].
  intros _. change (Js.byte " ") with 32%N. simpl.
  rewrite !andb_false_r. reflexivity.
Qed.

Lemma strip_space_three_bytes (c d e : ascii) (s3 z : string) :
  Js.strip_space (String c (String d (String e s3))) = None ->
  Js.strip_space (String c (String d (String e z))) = None.
Proof.
  unfold Js.strip_space.
  repeat match goal with
         | |- context [if ?b then _ else _] => destruct b
         end; intros H; try discriminate H; reflexivity.
Qed.

(** Collapsing a string that starts with no white space gives one. *)
Lemma strip_space_collapse (s : string) :
  Js.strip_space s = None -> Js.strip_space (Js.collapse_spaces s) = None.
Proof.
  intros H. rewrite collapse_spaces_eq, H.
  destruct s as [|c s1]; [reflexivity|].
  rewrite collapse_spaces_eq.
  destruct (Js.strip_space s1) as [r1|] eqn:H1;
    [now apply (strip_space_then_space c s1)|].
  destruct s1 as [|d s2]; [exact H|].
  rewrite collapse_spaces_eq.
  destruct (Js.strip_space s2) as [r2|] eqn:H2;
    [now apply (strip_space_then_byte_space c d s2)|].
  destruct s2 as [|e s3]; [exact H|].
  now apply (strip_space_three_bytes c d e s3).
Qed.

Lemma Collapsed_cons (c : ascii) (s : string) :
  (forall rest, Js.strip_space (String c s) = Some rest ->
     String c s = String " " rest /\ Js.strip_space rest = None) ->
  Collapsed s -> Collapsed (String c s).
Proof.
  intros Hhead Htail pre t rest Heq Ht. destruct pre as [|p pre].
  - simpl in Heq. subst t. now apply Hhead.
  - simpl in Heq. injection Heq as _ Heq. now apply (Htail pre).
Qed.

Lemma Collapsed_suffix (pre s : string) : Collapsed (pre ++ s)%string -> Collapsed s.
Proof.
  intros H pre' t rest Heq Ht. apply (H (pre ++ pre')%string); [|exact Ht].
  rewrite Heq. clear. induction pre as [|c pre IH]; simpl; [reflexivity|].
  now rewrite IH.
Qed.

Lemma Collapsed_collapse (s : string) : Collapsed (Js.collapse_spaces s).
Proof.
  remember (String.length s) as n eqn:Hn. revert s Hn.
  induction n as [n IH] using lt_wf_ind. intros s Hn.
  rewrite collapse_spaces_eq.
  destruct (Js.strip_space s) as [rest|] eqn:Hs.
  - pose proof (strip_space_shorter _ _ Hs) as Hlt.
    pose proof (trimStart_fuel_length (String.length rest) rest) as Hle.
    fold (Js.trimStart rest) in Hle.
    apply Collapsed_cons.
    + intros r Hr. simpl in Hr. injection Hr as <-.
      split; [reflexivity|]. apply strip_space_collapse, trimStart_done.
    + apply (IH (String.length (Js.trimStart rest))); [lia | reflexivity].
  - destruct s as [|c s']; [intros [|] t rest Heq Ht; destruct t; discriminate|].
    apply Collapsed_cons.
    + intros r Hr.
      pose proof (strip_space_collapse _ Hs) as Hnone.
      rewrite collapse_spaces_eq, Hs in Hnone. congruence.
    + apply (IH (String.length s')); [simpl in Hn; lia | reflexivity].
Qed.

Lemma collapse_Collapsed (s : string) : Collapsed s -> Js.collapse_spaces s = s.
Proof.
  remember (String.length s) as n eqn:Hn. revert s Hn.
  induction n as [n IH] using lt_wf_ind. intros s Hn Hc.
  rewrite collapse_spaces_eq.
  destruct (Js.strip_space s) as [rest|] eqn:Hs.
  - destruct (Hc "" s rest eq_refl Hs) as [-> Hrest].
    rewrite (trimStart_fixed _ Hrest). f_equal.
    apply (IH (String.length rest)); [simpl in Hn; lia | reflexivity|].
    now apply (Collapsed_suffix " ").
  - destruct s as [|c s']; [reflexivity|]. f_equal.
    apply (IH (String.length s')); [simpl in Hn; lia | reflexivity|].
    now apply (Collapsed_suffix (String c "")).
Qed.

Lemma app_assoc_string (a b c : string) :
  ((a ++ b) ++ c = a ++ (b ++ c))%string.
Proof. induction a as [|x a IH]; simpl; [reflexivity | now rewrite IH]. Qed.

Lemma length_append (a b : string) :
  String.length (a ++ b)%string = String.length a + String.length b.
Proof. induction a as [|x a IH]; simpl; [reflexivity | now rewrite IH]. Qed.

Lemma append_cancel_r (a b w : string) : (a ++ w = b ++ w)%string -> a = b.
Proof.
  revert b. induction a as [|x a IH]; intros [|y b] H; simpl in H.
  - reflexivity.
  - apply (f_equal String.length) in H. simpl in H.
    rewrite length_append in H. lia.
  - apply (f_equal String.length) in H. simpl in H.
    rewrite length_append in H. lia.
  - injection H as -> H. f_equal. now apply IH.
Qed.

Lemma Collapsed_prefix (s w : string) : Collapsed (s ++ w)%string -> Collapsed s.
Proof.
  intros H pre t rest Heq Ht.
  pose proof (strip_space_app t rest w Ht) as Happ.
  destruct (H pre (t ++ w)%string (rest ++ w)%string) as [Hshape Hnone].
  - now rewrite Heq, app_assoc_string.
  - exact Happ.
  - split; [|now apply strip_space_app_None in Hnone].
    now apply (append_cancel_r t (String " " rest) w).
Qed.

(** [sanitizeSummary] returns a normal form. *)
Lemma Collapsed_trim (s : string) : Collapsed s -> Collapsed (Js.trim s).
Proof.
  intros H. unfold Js.trim.
  destruct (trimEnd_split (Js.trimStart s)) as [w [Hw _]].
  apply (Collapsed_prefix _ w). rewrite <- Hw. clear w Hw.
  remember (String.length s) as n eqn:Hn. revert s Hn H.
  induction n as [n IH] using lt_wf_ind. intros s Hn H.
  rewrite trimStart_eq. destruct (Js.strip_space s) as [rest|] eqn:Hs; [|exact H].
  destruct (H "" s rest eq_refl Hs) as [-> Hrest].
  apply (IH (String.length rest)); [simpl in Hn; lia | reflexivity|].
  now apply (Collapsed_suffix " ").
Qed.

Lemma all_space_collapse (s : string) :
  Js.all_space (Js.collapse_spaces s) = Js.all_space s.
Proof.
  remember (String.length s) as n eqn:Hn. revert s Hn.
  induction n as [n IH] using lt_wf_ind. intros s Hn.
  rewrite collapse_spaces_eq.
  destruct (Js.strip_space s) as [rest|] eqn:Hs.
  - pose proof (strip_space_shorter _ _ Hs) as Hlt.
    pose proof (trimStart_fuel_length (String.length rest) rest) as Hle.
    fold (Js.trimStart rest) in Hle.
    rewrite (all_space_eq (String " " _)). simpl Js.strip_space. cbv iota.
    rewrite (IH (String.length (Js.trimStart rest))) by (lia || reflexivity).
    rewrite (all_space_eq s), Hs.
    unfold Js.all_space. f_equal. f_equal.
    apply trimStart_fixed, trimStart_done.
  - destruct s as [|c s']; [reflexivity|].
    pose proof (strip_space_collapse _ Hs) as Hnone.
    rewrite collapse_spaces_eq, Hs in Hnone.
    rewrite all_space_eq, Hnone, all_space_eq, Hs. reflexivity.
Qed.

Lemma sanitizeSummary_idem (v : option string) :
  sanitizeSummary (Some (sanitizeSummary v)) = sanitizeSummary v.
Proof.
  destruct v as [v|]; [|reflexivity]. simpl.
  destruct (Js.truthy v); [|reflexivity].
  destruct (Js.truthy (Js.trim (Js.collapse_spaces v))) eqn:Ht.
  - rewrite (collapse_Collapsed (Js.trim (Js.collapse_spaces v))).
    + apply trim_idem.
    + apply Collapsed_trim, Collapsed_collapse.
  - now destruct (Js.trim (Js.collapse_spaces v)).
Qed.

Lemma sanitizeSummary_empty_iff (v : string) :
  sanitizeSummary (Some v) = "" <-> Js.all_space v = true.
Proof.
  simpl. destruct v as [|c v]; [simpl; tauto|]. simpl Js.truthy. cbv iota.
  rewrite trim_empty_iff, all_space_collapse. tauto.
Qed.

(** ** Normalization *)

(** X4.  The summary text [sanitizeSummary] returns is in normal form:
    sanitizing, trimming or collapsing it again changes nothing; it neither
    starts nor ends with white space; every white space in it is a single
    ASCII space; and it is empty exactly when the input is absent or white
    space only. *)
Theorem sanitizeSummary_normal_form (v : option string) :
  let s := sanitizeSummary v in
  sanitizeSummary (Some s) = s
  /\ Js.trim s = s
  /\ Js.collapse_spaces s = s
  /\ Js.strip_space s = None
  /\ (forall pre t, s = (pre ++ t)%string -> t <> "" -> Js.all_space t = false)
  /\ Collapsed s
  /\ (s = "" <-> blank v = true).
Proof.
  intros s.
  assert (Hshape : s = "" \/ exists u, s = Js.trim (Js.collapse_spaces u)).
  { subst s. destruct v as [u|]; [|now left]. simpl.
    destruct (Js.truthy u); [right; now exists u | now left]. }
  assert (Hcollapsed : Collapsed s).
  { destruct Hshape as [->|[u ->]].
    - intros [|] t rest Heq Ht; destruct t; discriminate.
    - apply Collapsed_trim, Collapsed_collapse. }
  split; [apply sanitizeSummary_idem|].
  split; [destruct Hshape as [->|[u ->]]; [reflexivity | apply trim_idem]|].
  split; [now apply collapse_Collapsed|].
  split; [destruct Hshape as [->|[u ->]]; [reflexivity | apply strip_space_trim]|].
  split.
  - destruct Hshape as [->|[u ->]].
    + intros pre t Heq Ht. destruct pre, t; try discriminate Heq. congruence.
    + intros pre t. apply trimEnd_suffix.
  - split; [exact Hcollapsed|]. subst s.
    destruct v as [u|]; [apply sanitizeSummary_empty_iff | simpl; tauto].
Qed.

Lemma truthy_false_iff (s : string) : Js.truthy s = false <-> s = "".
Proof. destruct s; simpl; split; congruence. Qed.

Lemma truthy_true_iff (s : string) : Js.truthy s = true <-> s <> "".
Proof. destruct s; simpl; split; congruence. Qed.

(** X1.  [normalizeEvent] throws exactly when the item has no ISO date and
    a non-empty publication date that is no date; an item with an ISO date
    never throws, whatever its publication date is. *)
Theorem normalizeEvent_throws_iff {E : Engine} (source : EventSource.t)
    (item : Item.t) :
  (exists e, normalizeEvent source item = Throw e)
  <-> Item.isoDate item = None
      /\ exists d, Item.pubDate item = Some d /\ d <> ""
                   /\ Date_parse d = None.
Proof.
  split.
  - intros [e He]. unfold normalizeEvent, bind, Date_toISOString in He.
    destruct (Item.isoDate item) as [iso|].
    + destruct (option_map Js.trim (Item.title item)) as [t|]; [|discriminate].
      destruct (negb (Js.truthy t) || negb (Js.truthy (Js.nullish (Item.link item) ""))
                || negb (Js.truthy iso)); discriminate.
    + split; [reflexivity|].
      destruct (Item.pubDate item) as [d|].
      * destruct (Js.truthy d) eqn:Hd.
        -- destruct (Date_parse d) as [t|] eqn:Hp.
           ++ simpl in He.
              destruct (option_map Js.trim (Item.title item)) as [t'|]; [|discriminate].
              destruct (negb (Js.truthy t') || _ || _); discriminate.
           ++ exists d. repeat split; auto. now apply truthy_true_iff.
        -- destruct (option_map Js.trim (Item.title item)); discriminate.
      * destruct (option_map Js.trim (Item.title item)); discriminate.
  - intros [Hiso [d [Hpub [Hd Hp]]]].
    exists (RangeError "Invalid time value").
    apply (normalizeEvent_invalid_pubDate source item d); auto.
    now apply truthy_true_iff.
Qed.

Lemma normalizeEvent_accepts {E : Engine} (source : EventSource.t)
    (item : Item.t) (e : WorldEvent.t) :
  normalizeEvent source item = Normal (Some e) ->
  (exists t, Item.title item = Some t /\ WorldEvent.title e = Js.trim t)
  /\ WorldEvent.title e <> ""
  /\ Item.link item = Some (WorldEvent.url e)
  /\ WorldEvent.url e <> ""
  /\ WorldEvent.publishedAt e <> ""
  /\ (Item.isoDate item = Some (WorldEvent.publishedAt e)
      \/ (Item.isoDate item = None
          /\ exists d t, Item.pubDate item = Some d /\ d <> ""
                         /\ Date_parse d = Some t
                         /\ WorldEvent.publishedAt e = toISOString t))
  /\ WorldEvent.summary e
     = Js.or_else (sanitizeSummary (Item.contentSnippet item))
         (sanitizeSummary (Item.content item))
  /\ WorldEvent.sourceName e = EventSource.name source
  /\ WorldEvent.sourceHomepage e = EventSource.homepage source.
Proof.
  unfold normalizeEvent, bind, Date_toISOString.
  set (dated := match Item.isoDate item with
                | Some iso => Normal (Some iso)
                | None => _
                end).
  assert (Hdated : forall p, dated = Normal (Some p) ->
            Item.isoDate item = Some p
            \/ (Item.isoDate item = None
                /\ exists d t, Item.pubDate item = Some d /\ d <> ""
                               /\ Date_parse d = Some t /\ p = toISOString t)).
  { subst dated. intros p. destruct (Item.isoDate item) as [iso|].
    - intros H. injection H as ->. now left.
    - destruct (Item.pubDate item) as [d|]; [|discriminate].
      destruct (Js.truthy d) eqn:Hd; [|discriminate].
      destruct (Date_parse d) as [t|] eqn:Hparse; [|discriminate].
      simpl. intros H. injection H as <-. right. split; [reflexivity|].
      exists d, t. repeat split; auto. now apply truthy_true_iff. }
  destruct dated as [[p|]|]; try discriminate;
    destruct (Item.title item) as [t|]; simpl; try discriminate.
  destruct (Js.truthy (Js.trim t)) eqn:Ht; simpl; [|discriminate].
  destruct (Item.link item) as [l|]; simpl; [|discriminate].
  destruct (Js.truthy l) eqn:Hl; simpl; [|discriminate].
  destruct (Js.truthy p) eqn:Hp; simpl; [|discriminate].
  intros H. injection H as <-. simpl.
  repeat split; try (now apply truthy_true_iff); eauto.
Qed.

(** X2.  An accepted event takes its fields from the item and the source:
    the title is the trimmed title of the item and is not empty, the
    address is the link and is not empty, the publication date is not empty
    and is the ISO date of the item or, without one, the ISO rendering of
    the parsed publication date; the summary is the sanitized snippet or,
    when that is empty, the sanitized content. *)
Theorem accepted_event_comes_from_item {E : Engine} (source : EventSource.t)
    (item : Item.t) (e : WorldEvent.t) :
  normalizeEvent source item = Normal (Some e) ->
  (exists t, Item.title item = Some t /\ WorldEvent.title e = Js.trim t)
  /\ WorldEvent.title e <> ""
  /\ Item.link item = Some (WorldEvent.url e)
  /\ WorldEvent.url e <> ""
  /\ WorldEvent.publishedAt e <> ""
  /\ (Item.isoDate item = Some (WorldEvent.publishedAt e)
      \/ (Item.isoDate item = None
          /\ exists d t, Item.pubDate item = Some d /\ d <> ""
                         /\ Date_parse d = Some t
                         /\ WorldEvent.publishedAt e = toISOString t))
  /\ WorldEvent.summary e
     = Js.or_else (sanitizeSummary (Item.contentSnippet item))
         (sanitizeSummary (Item.content item))
  /\ WorldEvent.sourceName e = EventSource.name source
  /\ WorldEvent.sourceHomepage e = EventSource.homepage source.
Proof. apply normalizeEvent_accepts. Qed.

Lemma accepted_event_comes_from_item_witness :
  exists e,
    normalizeEvent (E := Sample.engine) Sample.S1 Sample.withEnclosure
    = Normal (Some e)
    /\ WorldEvent.title e <> ""
    /\ Item.link Sample.withEnclosure = Some (WorldEvent.url e).
Proof.
  eexists. split; [vm_compute; reflexivity|].
  pose proof (accepted_event_comes_from_item (E := Sample.engine) Sample.S1
                Sample.withEnclosure _ eq_refl) as [_ [Ht [Hl _]]].
  split; [exact Ht | exact Hl].
Defined.

(** X3.  An item is never turned into an event when its title is absent or
    white space only, when its link is absent or empty, when its ISO date
    is the empty string (even if its publication date is valid), or when it
    has neither an ISO date nor a non-empty publication date. *)
Theorem normalizeEvent_rejects {E : Engine} (source : EventSource.t)
    (item : Item.t) :
  blank (Item.title item) = true
  \/ Item.link item = None \/ Item.link item = Some ""
  \/ Item.isoDate item = Some ""
  \/ (Item.isoDate item = None
      /\ (Item.pubDate item = None \/ Item.pubDate item = Some "")) ->
  forall e, normalizeEvent source item <> Normal (Some e).
Proof.
  intros Hrej e He. apply normalizeEvent_accepts in He.
  destruct He as [[t [Ht Htrim]] [Htitle [Hlink [Hurl [Hpub [Hdate _]]]]]].
  destruct Hrej as [Hb|[Hl|[Hl|[Hiso|[Hiso Hp]]]]].
  - rewrite Ht in Hb. simpl in Hb. apply trim_empty_iff in Hb. congruence.
  - congruence.
  - rewrite Hlink in Hl. congruence.
  - destruct Hdate as [Hd|[Hd _]]; congruence.
  - destruct Hdate as [Hd|[_ [d [t' [Hd [Hne _]]]]]]; [congruence|].
    destruct Hp as [Hp|Hp]; congruence.
Qed.

Lemma normalizeEvent_rejects_witness :
  blank (Item.title Sample.untitled) = true
  /\ normalizeEvent (E := Sample.engine) Sample.S1 Sample.untitled = Normal None.
Proof.
  split; [reflexivity|].
  pose proof (normalizeEvent_rejects (E := Sample.engine) Sample.S1
                Sample.untitled (or_introl eq_refl)) as Hrej.
  destruct (normalizeEvent (E := Sample.engine) Sample.S1 Sample.untitled)
    as [[e|]|err] eqn:Hn.
  - destruct (Hrej e eq_refl).
  - reflexivity.
  - vm_compute in Hn. discriminate Hn.
Defined.

Lemma sanitizeSummary_blank (o : option string) :
  sanitizeSummary o = "" <-> blank o = true.
Proof.
  destruct o as [v|]; [apply sanitizeSummary_empty_iff | simpl; tauto].
Qed.

(** X5.  The summary of an event is the sanitized snippet when the snippet
    has a character that is no white space, and the sanitized content
    otherwise; it is empty exactly when snippet and content are both absent
    or white space only. *)
Theorem summary_falls_back_to_content {E : Engine} (source : EventSource.t) (item : Item.t)
    (e : WorldEvent.t) :
  normalizeEvent source item = Normal (Some e) ->
  (blank (Item.contentSnippet item) = false ->
     WorldEvent.summary e = sanitizeSummary (Item.contentSnippet item))
  /\ (blank (Item.contentSnippet item) = true ->
        WorldEvent.summary e = sanitizeSummary (Item.content item))
  /\ (WorldEvent.summary e = ""
      <-> blank (Item.contentSnippet item) = true
          /\ blank (Item.content item) = true).
Proof.
  intros He. apply normalizeEvent_accepts in He.
  destruct He as [_ [_ [_ [_ [_ [_ [Hsum _]]]]]]]. rewrite Hsum.
  unfold Js.or_else.
  pose proof (sanitizeSummary_blank (Item.contentSnippet item)) as Hs.
  pose proof (sanitizeSummary_blank (Item.content item)) as Hc.
  destruct (Js.truthy (sanitizeSummary (Item.contentSnippet item))) eqn:Ht.
  - apply truthy_true_iff in Ht.
    destruct (blank (Item.contentSnippet item)).
    + destruct Ht. now apply Hs.
    + repeat split; try discriminate; intros; tauto.
  - apply truthy_false_iff in Ht. apply Hs in Ht. rewrite Ht.
    repeat split; try discriminate; intros; tauto.
Qed.

Lemma summary_falls_back_to_content_witness :
  exists e,
    normalizeEvent (E := Sample.engine) Sample.S1 Sample.withEnclosure
    = Normal (Some e)
    /\ WorldEvent.summary e = "A snippet".
Proof.
  eexists. split; [vm_compute; reflexivity|].
  pose proof (summary_falls_back_to_content (E := Sample.engine) Sample.S1
                Sample.withEnclosure _ eq_refl) as [Hsnippet _].
  exact (Hsnippet eq_refl).
Defined.

(** ** The response *)

Lemma selectSources_incl {E : Engine} (registry : list EventSource.t)
    (params : SearchParams.t) (source : EventSource.t) :
  In source (selectSources registry params) -> In source registry.
Proof.
  unfold selectSources. destruct (String.eqb _ _); [auto|].
  intros H. now apply filter_In in H.
Qed.

(** X6.  Every returned event has a non-empty title, address and
    publication date, and belongs to a source of the registry that is listed
    in [sources]: it carries the id, name, homepage and regions of that
    source, and its id is built from the id of that source and its own
    address. *)
Theorem returned_events_are_attributed {E : Engine}
    (registry : list EventSource.t) (parseURL : string -> completion Feed.t)
    (now : string) (params : SearchParams.t) (e : WorldEvent.t) :
  In e (Response.events (GET registry parseURL now params)) ->
  WorldEvent.title e <> "" /\ WorldEvent.url e <> ""
  /\ WorldEvent.publishedAt e <> ""
  /\ exists source,
       In source registry
       /\ In {| SourceRef.id := EventSource.id source;
                SourceRef.name := EventSource.name source;
                SourceRef.homepage := EventSource.homepage source |}
            (Response.sources (GET registry parseURL now params))
       /\ WorldEvent.sourceId e = EventSource.id source
       /\ WorldEvent.sourceName e = EventSource.name source
       /\ WorldEvent.sourceHomepage e = EventSource.homepage source
       /\ WorldEvent.regions e = EventSource.regions source
       /\ WorldEvent.id e = eventId source (WorldEvent.url e).
Proof.
  intros Hin. unfold GET in Hin. apply events_incl, unsorted_incl in Hin.
  destruct (flattened_In _ _ _ Hin) as [source [item [Hsrc Hitem]]].
  pose proof (normalizeEvent_fields _ _ _ Hitem) as [_ [Hid [Hsid [Hreg _]]]].
  pose proof (normalizeEvent_accepts _ _ _ Hitem)
    as [_ [Ht [_ [Hu [Hp [_ [_ [Hname Hhome]]]]]]]].
  repeat split; auto.
  exists source. repeat split; auto.
  - now apply selectSources_incl in Hsrc.
  - exact (in_map sourceRef _ _ Hsrc).
Qed.

Lemma returned_events_are_attributed_witness :
  exists e,
    In e (Response.events
            (GET (E := Sample.engine) Sample.registry Sample.net "now"
               Sample.noParams))
    /\ WorldEvent.sourceId e = "s2"
    /\ WorldEvent.title e <> ""
    /\ In {| SourceRef.id := "s2";
             SourceRef.name := "Source s2";
             SourceRef.homepage := "https://s2.example" |}
         (Response.sources
            (GET (E := Sample.engine) Sample.registry Sample.net "now"
               Sample.noParams)).
Proof.
  eexists. split; [vm_compute; left; reflexivity|].
  split; [reflexivity|].
  match goal with
  | |- WorldEvent.title ?e <> _ /\ _ =>
      destruct (returned_events_are_attributed (E := Sample.engine)
                  Sample.registry Sample.net "now" Sample.noParams e)
        as [Ht [_ [_ [source [_ [Hlisted [Hsid [Hname [Hhome _]]]]]]]]]
  end.
  - vm_compute. left. reflexivity.
  - split; [exact Ht|].
    rewrite <- Hsid, <- Hname, <- Hhome in Hlisted. exact Hlisted.
Defined.

Lemma blank_query_is_no_filter {E : Engine}
    (registry : list EventSource.t) (parseURL : string -> completion Feed.t)
    (now : string) (params : SearchParams.t) :
  queryOf params = None \/ queryOf params = Some "" ->
  Response.events (GET registry parseURL now params)
  = Response.events (GET registry parseURL now (withoutQuery params)).
Proof.
  intros Hq. unfold GET, respond, unsorted, filterByQuery. simpl.
  assert (Hno : Js.truthy_opt (queryOf params) = false)
    by (destruct Hq as [-> | ->]; reflexivity).
  rewrite Hno. reflexivity.
Qed.

(** X7.  With a query that is not empty once trimmed and lower-cased, every
    returned event has the query as a substring of its lower-cased title,
    space and summary; with an absent or empty query the events are those of
    the same request without the query parameter. *)
Theorem query_keeps_matching_events {E : Engine}
    (registry : list EventSource.t) (parseURL : string -> completion Feed.t)
    (now : string) (params : SearchParams.t) :
  (forall q, queryOf params = Some q -> q <> "" ->
     forall e, In e (Response.events (GET registry parseURL now params)) ->
       Js.includes
         (toLowerCase (WorldEvent.title e ++ " " ++ WorldEvent.summary e)) q
       = true)
  /\ (queryOf params = None \/ queryOf params = Some "" ->
      Response.events (GET registry parseURL now params)
      = Response.events (GET registry parseURL now (withoutQuery params))).
Proof.
  split.
  - intros q Hq Hne e Hin. unfold GET in Hin. apply events_incl in Hin.
    unfold unsorted, filterByQuery in Hin. rewrite Hq in Hin. simpl in Hin.
    rewrite (proj2 (truthy_true_iff q) Hne) in Hin.
    apply filter_In in Hin. exact (proj2 Hin).
  - apply blank_query_is_no_filter.
Qed.

Lemma query_keeps_matching_events_witness :
  List.map WorldEvent.title
    (Response.events
       (GET (E := Sample.engine) Sample.registry Sample.net "now"
          (Sample.params (Some " Trade ") None None)))
  = ["Asia Trade Talks"]
  /\ Forall
       (fun e =>
          Js.includes
            (Sample.asciiLower
               (WorldEvent.title e ++ " " ++ WorldEvent.summary e)%string)
            "trade" = true)
       (Response.events
          (GET (E := Sample.engine) Sample.registry Sample.net "now"
             (Sample.params (Some " Trade ") None None))).
Proof.
  split; [vm_compute; reflexivity|].
  apply Forall_forall.
  apply (proj1 (query_keeps_matching_events (E := Sample.engine)
                  Sample.registry Sample.net "now"
                  (Sample.params (Some " Trade ") None None)) "trade").
  - reflexivity.
  - discriminate.
Defined.

Lemma StronglySorted_filter {A} (R : A -> A -> Prop) (p : A -> bool)
    (l : list A) :
  StronglySorted R l -> StronglySorted R (List.filter p l).
Proof.
  induction l as [|x l IH]; simpl; intros Hs; [constructor|].
  inversion Hs as [|? ? Hrest Hall]; subst.
  destruct (p x); [|auto]. constructor; [auto|].
  rewrite Forall_forall in *. intros y Hy. apply filter_In in Hy.
  now apply Hall.
Qed.

Lemma sort_filter {E : Engine} (p : WorldEvent.t -> bool)
    (l : list WorldEvent.t) :
  Forall parseable l ->
  Js.sort byRecency (List.filter p l) = List.filter p (Js.sort byRecency l).
Proof.
  intros Hgood.
  set (rank := fun e : WorldEvent.t =>
                 match getTime e with Some t => (- t)%Z | None => 0%Z end).
  symmetry.
  apply (sort_unique byRecency rank parseable byRecency_rank).
  - rewrite Forall_forall in *. intros e He. apply filter_In in He.
    now apply Hgood.
  - apply StronglySorted_filter.
    now apply (sort_sorted byRecency rank parseable byRecency_rank).
  - intros v. rewrite filter_swap.
    rewrite (sort_stable byRecency rank parseable byRecency_rank v l Hgood).
    apply filter_swap.
Qed.

(** X8.  When the publication dates denote instants, filtering by the query
    and ranking commute: the events returned for a non-empty query are the
    matching events of the ranking computed without the query, in the same
    order, cut at the limit. *)
Theorem query_filters_the_ranking {E : Engine}
    (registry : list EventSource.t) (parseURL : string -> completion Feed.t)
    (now : string) (params : SearchParams.t) (q : string) :
  let results := List.map (fetchSource parseURL) (selectSources registry params) in
  Forall parseable (List.concat results) ->
  queryOf params = Some q -> q <> "" ->
  Response.events (GET registry parseURL now params)
  = Js.slice0
      (List.filter (matchesQuery q)
         (Js.sort byRecency (unsorted (withoutQuery params) results)))
      (limitOf params).
Proof.
  intros results Hgood Hq Hne. unfold GET, respond. simpl. fold results.
  f_equal. unfold unsorted, filterByQuery. rewrite Hq. simpl.
  rewrite (proj2 (truthy_true_iff q) Hne).
  apply sort_filter.
  rewrite Forall_forall in *. intros e He. apply Hgood. now apply dedupe_incl.
Qed.

Lemma query_filters_the_ranking_witness :
  List.map WorldEvent.title
    (Response.events
       (GET (E := Sample.engine) Sample.registry Sample.netTies "now"
          (Sample.params (Some "c") None None)))
  = List.map WorldEvent.title
      (List.filter (matchesQuery (E := Sample.engine) "c")
         (Response.events
            (GET (E := Sample.engine) Sample.registry Sample.netTies "now"
               Sample.noParams))).
Proof.
  rewrite (query_filters_the_ranking (E := Sample.engine) Sample.registry
             Sample.netTies "now" (Sample.params (Some "c") None None) "c").
  - vm_compute. reflexivity.
  - repeat constructor; vm_compute; discriminate.
  - reflexivity.
  - discriminate.
Defined.

(** X9.  The number of returned events is the smaller of the limit and the
    number of deduplicated events that pass the query filter; when that
    number does not exceed the limit, the response holds each of them
    exactly once (whether or not their dates parse). *)
Theorem response_size {E : Engine}
    (registry : list EventSource.t) (parseURL : string -> completion Feed.t)
    (now : string) (params : SearchParams.t) :
  let results := List.map (fetchSource parseURL) (selectSources registry params) in
  let events := Response.events (GET registry parseURL now params) in
  exists L,
    limitOf params = Js.Num L
    /\ Z.of_nat (List.length events)
       = Z.min L (Z.of_nat (List.length (unsorted params results)))
    /\ ((Z.of_nat (List.length (unsorted params results)) <= L)%Z ->
        Permutation events (unsorted params results)).
Proof.
  intros results events.
  destruct (limitOf_floor params) as [L [HL Hfloor]]. exists L.
  split; [exact HL|].
  assert (Hev : events
                = firstn (Z.to_nat L) (Js.sort byRecency (unsorted params results))).
  { subst events. unfold GET, respond. simpl. fold results. rewrite HL. simpl.
    destruct (Z.ltb_spec L 0); [lia | reflexivity]. }
  pose proof (Permutation_length (sort_perm byRecency (unsorted params results)))
    as Hlen.
  rewrite Hev. split.
  - rewrite length_firstn, Hlen. lia.
  - intros Hle. rewrite firstn_all2 by lia. apply sort_perm.
Qed.

Lemma response_size_witness :
  List.length
    (Response.events
       (GET (E := Sample.engine) Sample.registry Sample.netTwelve "now"
          (Sample.params None None (Some "11")))) = 11
  /\ List.length
       (Response.events
          (GET (E := Sample.engine) Sample.registry Sample.netTwelve "now"
             (Sample.params None None (Some "40")))) = 12.
Proof.
  destruct (response_size (E := Sample.engine) Sample.registry Sample.netTwelve
              "now" (Sample.params None None (Some "11"))) as [L1 [HL1 [H1 _]]].
  destruct (response_size (E := Sample.engine) Sample.registry Sample.netTwelve
              "now" (Sample.params None None (Some "40"))) as [L2 [HL2 [H2 _]]].
  vm_compute in HL1, HL2. injection HL1 as <-. injection HL2 as <-.
  split; apply Nat2Z.inj; [rewrite H1 | rewrite H2]; vm_compute; reflexivity.
Defined.

Lemma addUnlessSeen_fresh (l : list WorldEvent.t) (m : Js.Map WorldEvent.t) :
  NoDup (List.map WorldEvent.url l) ->
  (forall x, In x l -> Js.Map_has m (WorldEvent.url x) = false) ->
  fold_left addUnlessSeen l m
  = m ++ List.map (fun x => (WorldEvent.url x, x)) l.
Proof.
  revert m. induction l as [|x l IH]; simpl; intros m Hnd Hfresh.
  - now rewrite app_nil_r.
  - inversion Hnd as [|? ? Hx Hl]; subst.
    unfold addUnlessSeen at 2. rewrite (Hfresh x) by auto.
    rewrite (Map_set_fresh _ _ _ (Hfresh x (or_introl eq_refl))).
    rewrite IH; [now rewrite <- app_assoc | exact Hl |].
    intros y Hy. rewrite Map_has_app, (Hfresh y) by auto. simpl.
    rewrite orb_false_r.
    destruct (String.eqb_spec (WorldEvent.url x) (WorldEvent.url y)) as [Heq|];
      [|reflexivity].
    destruct Hx. rewrite Heq. now apply in_map.
Qed.

(** X10.  Deduplication leaves a sequence of events with pairwise distinct
    addresses as it is, and deduplicating twice is deduplicating once. *)
Theorem dedupe_keeps_distinct_urls (l : list WorldEvent.t) :
  (NoDup (List.map WorldEvent.url l) -> Js.Map_values (dedupe l) = l)
  /\ Js.Map_values (dedupe (Js.Map_values (dedupe l))) = Js.Map_values (dedupe l).
Proof.
  assert (Hid : forall l', NoDup (List.map WorldEvent.url l') ->
                           Js.Map_values (dedupe l') = l').
  { intros l' Hnd. unfold dedupe. rewrite addUnlessSeen_fresh; auto.
    unfold Js.Map_values. simpl. rewrite map_map. simpl. apply map_id. }
  split; [apply Hid | apply Hid, dedupe_NoDup].
Qed.

(** ** Scheduling, the limit and the page *)

Lemma dedupe_keeps_distinct_urls_witness :
  Js.Map_values
    (dedupe (fetchSource (E := Sample.engine) Sample.netTies Sample.S1))
  = fetchSource (E := Sample.engine) Sample.netTies Sample.S1.
Proof.
  apply (proj1 (dedupe_keeps_distinct_urls
                  (fetchSource (E := Sample.engine) Sample.netTies Sample.S1))).
  vm_compute. repeat constructor; simpl; intuition discriminate.
Defined.

Lemma collect_None_iff {A} (slots : list (option A)) :
  Js.collect slots = None <-> In None slots.
Proof.
  induction slots as [|[v|] slots IH]; simpl.
  - split; [discriminate | tauto].
  - destruct (Js.collect slots).
    + split; [discriminate|]. intros [H|H]; [discriminate|].
      apply IH in H. discriminate H.
    + split; [intros _; right; now apply IH | reflexivity].
  - split; auto.
Qed.

Lemma Promise_all_pending {A} (values : list A) (order : list nat) :
  Js.Promise_all values order = None
  <-> exists i, i < List.length values /\ ~ In i order.
Proof.
  unfold Js.Promise_all.
  rewrite (repeat_map_seq None (List.length values) 0).
  pose proof (fold_settle values order []) as Hfold. simpl in Hfold.
  rewrite Hfold, app_nil_r, collect_None_iff, in_map_iff.
  split.
  - intros [i [Hi Hin]]. apply in_seq in Hin. exists i. split; [lia|].
    destruct (existsb (Nat.eqb i) (List.rev order)) eqn:Hex.
    + apply nth_error_None in Hi. lia.
    + intros Hord. apply in_rev in Hord.
      assert (Htrue : existsb (Nat.eqb i) (List.rev order) = true).
      { apply existsb_exists. exists i. split; [exact Hord | apply Nat.eqb_refl]. }
      congruence.
  - intros [i [Hi Hnot]]. exists i. split; [|apply in_seq; lia].
    destruct (existsb (Nat.eqb i) (List.rev order)) eqn:Hex; [|reflexivity].
    apply existsb_exists in Hex. destruct Hex as [j [Hj Heq]].
    apply Nat.eqb_eq in Heq. subst j. apply in_rev in Hj. contradiction.
Qed.

(** X11.  The route gives no response exactly as long as the fetch of some
    selected source has not settled: it answers only after every fetch of
    [Promise.all] has settled, and then it does answer. *)
Theorem no_response_before_every_fetch_settles {E : Engine}
    (registry : list EventSource.t) (parseURL : string -> completion Feed.t)
    (now : string) (order : list nat) (params : SearchParams.t) :
  GET_scheduled registry parseURL now order params = None
  <-> exists i, i < List.length (selectSources registry params) /\ ~ In i order.
Proof.
  unfold GET_scheduled.
  rewrite <- (length_map (fetchSource parseURL) (selectSources registry params)).
  rewrite <- Promise_all_pending.
  destruct (Js.Promise_all _ order); simpl; split; congruence.
Qed.

Lemma digits_numeral (d : Decimal.uint) (acc : nat) (seen : bool) (rest : string) :
  noLeadingDigit rest ->
  Js.digits (Z.of_nat acc) seen (NilEmpty.string_of_uint d ++ rest)
  = (Z.of_nat (Nat.of_uint_acc d acc),
     match d with Decimal.Nil => seen | _ => true end).
Proof.
  intros Hrest. revert acc seen.
  induction d as [|d IH|d IH|d IH|d IH|d IH|d IH|d IH|d IH|d IH|d IH];
    intros acc seen.
  1: { simpl. destruct rest as [|c rest]; [reflexivity|].
       simpl in *. now rewrite Hrest. }
  all: cbn [NilEmpty.string_of_uint String.append Js.digits Nat.of_uint_acc].
  all: match goal with
       | |- context [Js.digit ?c] =>
           let v := eval vm_compute in (Js.digit c) in
           change (Js.digit c) with v
       end; cbv iota.
  all: match goal with
       | |- Js.digits ?z true _ = (Z.of_nat (Nat.of_uint_acc _ ?a), _) =>
           replace z with (Z.of_nat a)
             by (rewrite Nat.tail_mul_spec; lia)
       end.
  all: rewrite IH; f_equal; now destruct d.
Qed.

Lemma strip_space_digit (c : ascii) (s : string) (v : Z) :
  Js.digit c = Some v -> Js.strip_space (String c s) = None.
Proof.
  unfold Js.digit, Js.strip_space.
  destruct ((48 <=? Js.byte c) && (Js.byte c <=? 57))%N eqn:Hc; [|discriminate].
  intros _. apply andb_true_iff in Hc. destruct Hc as [Hlo Hhi].
  apply N.leb_le in Hlo, Hhi.
  repeat match goal with
         | |- context [N.eqb (Js.byte c) ?k] =>
             destruct (N.eqb_spec (Js.byte c) k); [lia|]
         | |- context [N.leb (Js.byte c) ?k] =>
             destruct (N.leb_spec (Js.byte c) k); [lia|]
         end.
  rewrite andb_false_r. simpl.
  destruct s as [|d [|e s3]]; reflexivity.
Qed.

Lemma digits_seen (acc : Z) (s : string) : snd (Js.digits acc true s) = true.
Proof.
  revert acc. induction s as [|c s IH]; intros acc; simpl; [reflexivity|].
  destruct (Js.digit c); [apply IH | reflexivity].
Qed.

Lemma parseInt_unsigned (c : ascii) (s : string) (v : Z) :
  Js.digit c = Some v ->
  Js.parseInt (String c s)
  = (if (Js.overflow_bound <=? fst (Js.digits 0 false (String c s)))%Z
     then Js.Infinity false
     else Js.Num (fst (Js.digits 0 false (String c s)))).
Proof.
  intros Hc. unfold Js.parseInt.
  rewrite (trimStart_fixed _ (strip_space_digit c s v Hc)).
  assert (Hsign : match String c s with
                  | String "-" r => (true, r)
                  | String "+" r => (false, r)
                  | _ => (false, String c s)
                  end = (false, String c s)).
  { destruct c as [[|] [|] [|] [|] [|] [|] [|] [|]];
      try reflexivity; discriminate Hc. }
  rewrite Hsign.
  pose proof (digits_seen (10 * 0 + v) s) as Hseen.
  cbn [Js.digits]. rewrite Hc.
  destruct (Js.digits (10 * 0 + v) true s) as [value seen] eqn:Hd.
  cbn [snd fst] in *. rewrite Hseen. reflexivity.
Qed.

Lemma parseInt_numeral (n : nat) (rest : string) :
  noLeadingDigit rest -> (Z.of_nat n < Js.overflow_bound)%Z ->
  Js.parseInt (numeral n ++ rest) = Js.Num (Z.of_nat n).
Proof.
  intros Hrest Hbound.
  assert (Hd : exists d, numeral n = NilEmpty.string_of_uint d
                         /\ Nat.of_uint d = n /\ d <> Decimal.Nil).
  { unfold numeral, NilZero.string_of_uint.
    pose proof (Unsigned.of_to n) as Hn.
    destruct (Nat.to_uint n) as [|d|d|d|d|d|d|d|d|d|d] eqn:Hto.
    1: exists (Decimal.D0 Decimal.Nil); repeat split; [exact Hn | discriminate].
    all: eexists; repeat split; [exact Hn | discriminate]. }
  destruct Hd as [d [-> [Hn Hnil]]].
  pose proof (digits_numeral d 0 false rest Hrest) as Hdigits.
  fold (Nat.of_uint d) in Hdigits. rewrite Hn in Hdigits.
  assert (Hhead : exists c s v, (NilEmpty.string_of_uint d ++ rest)%string = String c s
                                /\ Js.digit c = Some v).
  { destruct d; [congruence|..]; simpl; do 3 eexists; split;
      try reflexivity; vm_compute; reflexivity. }
  destruct Hhead as [c [s [v [Heq Hc]]]].
  rewrite Heq in *. rewrite (parseInt_unsigned c s v Hc).
  change (Z.of_nat 0) with 0%Z in Hdigits. rewrite Hdigits. simpl fst.
  destruct (Z.leb_spec Js.overflow_bound (Z.of_nat n)); [lia | reflexivity].
Qed.

(** X12.  A limit parameter that starts with the decimal numeral of a
    number [n] below the overflow bound, followed by nothing or by text that
    starts with no digit, gives the limit [max n 10]: a limit of at least 10
    is honoured as written. *)
Theorem numeric_limit_is_honoured (params : SearchParams.t) (n : nat)
    (rest : string) :
  SearchParams.limit params = Some (numeral n ++ rest)%string ->
  noLeadingDigit rest -> (Z.of_nat n < Js.overflow_bound)%Z ->
  limitOf params = Js.Num (Z.max (Z.of_nat n) 10).
Proof.
  intros Hlimit Hrest Hbound. unfold limitOf. rewrite Hlimit. simpl Js.nullish.
  now rewrite (parseInt_numeral n rest Hrest Hbound).
Qed.

Lemma numeric_limit_is_honoured_witness :
  limitOf (Sample.params None None (Some "25 per page")) = Js.Num 25.
Proof.
  apply (numeric_limit_is_honoured
           (Sample.params None None (Some "25 per page")) 25 " per page").
  - reflexivity.
  - reflexivity.
  - vm_compute. reflexivity.
Defined.

Lemma limitOf_request (regionId query : string) :
  limitOf (requestParams regionId query) = Js.Num 60.
Proof. reflexivity. Qed.

(** X13.  For the request the page sends: the query the route filters by
    is the lower-cased trimmed text of the search box when that text is not
    blank, and there is no query otherwise (trimming twice is trimming
    once); the response never holds more than 60 events; a blank search box
    gives the events of the request without query. *)
Theorem page_request_query_and_limit {E : Engine}
    (registry : list EventSource.t) (parseURL : string -> completion Feed.t)
    (now : string) (regionId query : string) :
  let params := requestParams regionId query in
  queryOf params
  = (if Js.truthy (Js.trim query) then Some (toLowerCase (Js.trim query)) else None)
  /\ List.length (Response.events (GET registry parseURL now params)) <= 60
  /\ (Js.all_space query = true ->
      Response.events (GET registry parseURL now params)
      = Response.events (GET registry parseURL now (withoutQuery params))).
Proof.
  intros params.
  assert (Hq : queryOf params
               = if Js.truthy (Js.trim query)
                 then Some (toLowerCase (Js.trim query)) else None).
  { unfold queryOf, params, requestParams. simpl.
    destruct (Js.truthy (Js.trim query)); simpl; [|reflexivity].
    now rewrite trim_idem. }
  split; [exact Hq|]. split.
  - unfold GET, respond. cbn [Response.events].
    change (limitOf params) with (limitOf (requestParams regionId query)).
    rewrite limitOf_request.
    pose proof (slice0_length
                  (Js.sort byRecency
                     (unsorted params
                        (List.map (fetchSource parseURL)
                           (selectSources registry params)))) 60) as Hlen.
    lia.
  - intros Hblank.
    apply blank_query_is_no_filter.
    left. rewrite Hq. apply trim_empty_iff in Hblank. now rewrite Hblank.
Qed.

Lemma page_request_query_and_limit_witness :
  queryOf (E := Sample.engine) (requestParams "global" "  Trade Talks ")
  = Some "trade talks"
  /\ Response.events
       (GET (E := Sample.engine) Sample.registry Sample.net "now"
          (requestParams "asia" "   "))
     = Response.events
         (GET (E := Sample.engine) Sample.registry Sample.net "now"
            (withoutQuery (requestParams "asia" "   "))).
Proof.
  split.
  - rewrite (proj1 (page_request_query_and_limit (E := Sample.engine)
                      Sample.registry Sample.net "now" "global"
                      "  Trade Talks ")).
    reflexivity.
  - apply (proj2 (proj2 (page_request_query_and_limit (E := Sample.engine)
                           Sample.registry Sample.net "now" "asia" "   "))).
    reflexivity.
Defined.

(** X14.  For every region option the page offers, on an engine whose
    lower-casing leaves the id of the option as it is: the option "global"
    selects the whole registry, every other option exactly the sources
    tagged with its id. *)
Theorem page_region_option_selects_its_sources {E : Engine}
    (registry : list EventSource.t) (query : string) (option : RegionOption.t) :
  In option REGION_OPTIONS ->
  toLowerCase (RegionOption.id option) = RegionOption.id option ->
  selectSources registry (requestParams (RegionOption.id option) query)
  = if String.eqb (RegionOption.id option) "global"
    then registry
    else List.filter
           (fun s => Js.array_includes (EventSource.regions s)
                       (RegionOption.id option))
           registry.
Proof.
  intros Hin Hlower.
  destruct (String.eqb_spec (RegionOption.id option) "global") as [Hg|Hg].
  - unfold selectSources, regionOf, requestParams. rewrite Hg. reflexivity.
  - assert (Hne : RegionOption.id option <> "").
    { simpl in Hin.
      destruct Hin as [<-|[<-|[<-|[<-|[<-|[<-|[]]]]]]]; discriminate. }
    rewrite (selectSources_named registry _ (RegionOption.id option)).
    + now rewrite Hlower.
    + unfold requestParams. simpl.
      destruct (String.eqb_spec (RegionOption.id option) "global");
        [contradiction | reflexivity].
    + now rewrite Hlower.
    + now rewrite Hlower.
Qed.

Lemma page_region_option_selects_its_sources_witness :
  selectSources (E := Sample.engine) Sample.registry
    (requestParams "europe" "") = [Sample.S1].
Proof.
  refine (eq_trans
            (page_region_option_selects_its_sources (E := Sample.engine)
               Sample.registry ""
               (RegionOption.Build "europe" "Europe"
                  "Continental updates & European affairs.") _ _) _).
  - simpl. tauto.
  - reflexivity.
  - reflexivity.
Defined.

(** X15.  The page shows its filter flag exactly when its request carries a
    query or a region: with the flag off the request has the limit only,
    and the route then selects the whole registry and applies no query
    filter. *)
Theorem page_filter_flag_matches_request {E : Engine}
    (registry : list EventSource.t) (regionId query : string) :
  (isFiltered regionId query = false
   <-> requestParams regionId query
       = {| SearchParams.query := None;
            SearchParams.region := None;
            SearchParams.limit := Some "60" |})
  /\ (isFiltered regionId query = false ->
      selectSources registry (requestParams regionId query) = registry
      /\ queryOf (requestParams regionId query) = None).
Proof.
  assert (Hiff : isFiltered regionId query = false
                 <-> requestParams regionId query
                     = {| SearchParams.query := None;
                          SearchParams.region := None;
                          SearchParams.limit := Some "60" |}).
  { unfold isFiltered, requestParams.
    destruct (String.eqb regionId "global"); simpl;
      destruct (Js.trim query); simpl; split; intros H;
      first [reflexivity | discriminate H]. }
  split; [exact Hiff|].
  intros H. apply Hiff in H. rewrite H. split; reflexivity.
Qed.

Lemma page_filter_flag_matches_request_witness :
  isFiltered "global" "   " = false
  /\ selectSources (E := Sample.engine) Sample.registry
       (requestParams "global" "   ") = Sample.registry
  /\ queryOf (E := Sample.engine) (requestParams "global" "   ") = None.
Proof.
  split; [reflexivity|].
  apply (proj2 (page_filter_flag_matches_request (E := Sample.engine)
                  Sample.registry "global" "   ")).
  reflexivity.
Defined.

(** X16.  Raising the limit only appends: for two requests with the same
    query and region, the events returned under the smaller limit are the
    first events returned under the larger one. *)
Theorem larger_limit_extends_response {E : Engine}
    (registry : list EventSource.t) (parseURL : string -> completion Feed.t)
    (now : string) (p1 p2 : SearchParams.t) (L1 L2 : Z) :
  SearchParams.query p1 = SearchParams.query p2 ->
  SearchParams.region p1 = SearchParams.region p2 ->
  limitOf p1 = Js.Num L1 -> limitOf p2 = Js.Num L2 -> (L1 <= L2)%Z ->
  Response.events (GET registry parseURL now p1)
  = firstn (Z.to_nat L1) (Response.events (GET registry parseURL now p2)).
Proof.
  intros Hq Hr H1 H2 Hle.
  destruct (limitOf_floor p1) as [L [HL Hfloor]].
  rewrite H1 in HL. injection HL as <-.
  assert (Hsel : selectSources registry p1 = selectSources registry p2)
    by (unfold selectSources, regionOf; now rewrite Hr).
  assert (Hun : forall results, unsorted p1 results = unsorted p2 results)
    by (intros results; unfold unsorted, queryOf; now rewrite Hq).
  unfold GET, respond. cbn [Response.events].
  rewrite H1, H2, Hsel, Hun. simpl.
  destruct (Z.ltb_spec L1 0); [lia|]. destruct (Z.ltb_spec L2 0); [lia|].
  rewrite firstn_firstn. f_equal. lia.
Qed.

Lemma larger_limit_extends_response_witness :
  Response.events
    (GET (E := Sample.engine) Sample.registry Sample.netTwelve "now"
       (Sample.params None None (Some "11")))
  = firstn 11
      (Response.events
         (GET (E := Sample.engine) Sample.registry Sample.netTwelve "now"
            (Sample.params None None (Some "40")))).
Proof.
  apply (larger_limit_extends_response (E := Sample.engine) Sample.registry
           Sample.netTwelve "now" (Sample.params None None (Some "11"))
           (Sample.params None None (Some "40")) 11 40).
  - reflexivity.
  - reflexivity.
  - vm_compute. reflexivity.
  - vm_compute. reflexivity.
  - lia.
Defined.

(** X17.  The route reads the region only through its lower-cased value and
    the query only through its trimmed, lower-cased value: two requests
    whose regions and queries agree up to case, and whose queries agree up
    to surrounding white space, get the same response. *)
Theorem parameters_are_case_insensitive {E : Engine}
    (registry : list EventSource.t) (parseURL : string -> completion Feed.t)
    (now : string) (p1 p2 : SearchParams.t) :
  option_map toLowerCase (SearchParams.region p1)
  = option_map toLowerCase (SearchParams.region p2) ->
  option_map (fun q => toLowerCase (Js.trim q)) (SearchParams.query p1)
  = option_map (fun q => toLowerCase (Js.trim q)) (SearchParams.query p2) ->
  SearchParams.limit p1 = SearchParams.limit p2 ->
  GET registry parseURL now p1 = GET registry parseURL now p2.
Proof.
  intros Hr Hq Hl.
  assert (Hsel : selectSources registry p1 = selectSources registry p2)
    by (unfold selectSources, regionOf; now rewrite Hr).
  assert (Hun : forall results, unsorted p1 results = unsorted p2 results).
  { intros results. unfold unsorted, queryOf. now rewrite Hq. }
  assert (Hlim : limitOf p1 = limitOf p2) by (unfold limitOf; now rewrite Hl).
  unfold GET, respond. now rewrite Hsel, Hun, Hlim.
Qed.

Lemma parameters_are_case_insensitive_witness :
  GET (E := Sample.engine) Sample.registry Sample.net "now"
    (Sample.params (Some "  SUMMIT") (Some "EUROPE") None)
  = GET (E := Sample.engine) Sample.registry Sample.net "now"
      (Sample.params (Some "summit ") (Some "Europe") None).
Proof.
  apply (parameters_are_case_insensitive (E := Sample.engine) Sample.registry
           Sample.net "now"); reflexivity.
Defined.
